(** * resolverDNS: the iterative resolver of [main.py]

    A shallow embedding of the resolution engine of [main.py]
    ([get_domain_key], [make_request], [find], [find_recursive],
    [get_results]) and the properties of it that the design document
    states.

    Conventions.
    - The process-wide dictionary [domain_cache] is a [gmap] of [gmap]s,
      threaded through every call together with the state of the network.
    - [dns.query.udp] is the only contact with the outside; it is a
      parameter [udp] that maps a state of the world and a query to a
      reply or a raised exception and a new state of the world.
    - [find] and [find_recursive] call each other without bound, so they
      are defined by recursion on a [fuel]: the number of nested calls of
      the two that is allowed.  An outcome is [Done] (the call returned),
      [Raise] (an exception left the call) or [OutOfFuel] (the call needs
      deeper nesting than [fuel]); each carries the state the process is
      left in.  "The call returns [r]" is always
      [exists fuel, f fuel ... = Done r]; [find_returns_more_fuel] shows the
      result does not depend on which sufficient fuel is taken.
    - The interpreter has a nesting limit of its own (about a thousand
      frames in CPython) and raises [RecursionError] where it is reached.
      Where that error lands is not modelled: [OutOfFuel] only says that
      the nesting went beyond [fuel], and a result [Done] for some [fuel] is
      the result of the program as long as the interpreter allows that
      depth.
    - A Python [str] is represented by its UTF-8 encoding, [bytes] by
      themselves; both are [string]s here, one [ascii] per byte.
    - [later] describes runs in which the calls of the resolver follow one
      another.  The server hands every request to a thread of its own and
      [find] takes no lock; what two requests can do to each other between
      lines 53 and 57 is [raced_root_response].                        *)

From Stdlib Require Import ZArith List Lia Ascii String.
From stdpp Require Import base option list strings gmap fin_maps.

Open Scope string_scope.
Open Scope Z_scope.

(** ** Data model *)

(** [dns.rdatatype]: the codes the resolver compares against. *)
Module rdatatype.
Definition A : Z := 1.
Definition CNAME : Z := 5.
Definition AAAA : Z := 28.
End rdatatype.

(** [dns.name.Name]: the tuple [labels] of byte strings; an absolute name
    ends with the empty root label.  A label can hold any byte:
    [dns.name.from_text] turns an escape [\DDD] into the byte [DDD]. *)
Record Name := mkName { labels : list string }.

(** [bytes.decode()]: strict UTF-8.  The bytes of a well-formed sequence
    are the text they encode; anything else raises [UnicodeDecodeError],
    here [None]: a byte that cannot start a character ([80]-[C1],
    [F5]-[FF]), a missing or wrong continuation byte, an overlong form, a
    surrogate, a code point beyond [10FFFF]. *)
Definition byte_between (lo hi : N) (c : ascii) : bool :=
  ((lo <=? N_of_ascii c) && (N_of_ascii c <=? hi))%N.

Definition continuation_byte (c : ascii) : bool := byte_between 128 191 c.

Fixpoint utf8_valid (s : string) : bool :=
  match s with
  | EmptyString => true
  | String c rest =>
      if byte_between 0 127 c then utf8_valid rest
      else if byte_between 194 223 c then
        match rest with
        | String c1 rest => continuation_byte c1 && utf8_valid rest
        | _ => false
        end
      else if byte_between 224 239 c then
        match rest with
        | String c1 (String c2 rest) =>
            (if byte_between 224 224 c then byte_between 160 191 c1
             else if byte_between 237 237 c then byte_between 128 159 c1
             else continuation_byte c1)
            && continuation_byte c2 && utf8_valid rest
        | _ => false
        end
      else if byte_between 240 244 c then
        match rest with
        | String c1 (String c2 (String c3 rest)) =>
            (if byte_between 240 240 c then byte_between 144 191 c1
             else if byte_between 244 244 c then byte_between 128 143 c1
             else continuation_byte c1)
            && continuation_byte c2 && continuation_byte c3 && utf8_valid rest
        | _ => false
        end
      else false
  end.

Definition decode (b : string) : option string :=
  if utf8_valid b then Some b else None.

(** A record ([dns.rdata.Rdata]): its type and [str(rdata)]. *)
Record Rdata := mkRdata { rdtype : Z; rd_text : string }.

(** [dns.rrset.RRset]: owner name, type, and the records.  A set parsed
    from a reply holds at least one record, hence [rr_first]; iterating the
    set yields [rdatas], and [rrset[0]] is [rr_first]. *)
Record RRset := mkRRset {
  rr_name : Name;
  rr_rdtype : Z;
  rr_first : Rdata;
  rr_rest : list Rdata
}.

Definition rdatas (rrset : RRset) : list Rdata :=
  rr_first rrset :: rr_rest rrset.

(** [dns.message.Message]: the two sections the resolver reads. *)
Record Message := mkMessage {
  answer : list RRset;
  additional : list RRset
}.

(** Truth value of a Python list: [if xs:]. *)
Definition truthy {X} (xs : list X) : bool :=
  match xs with [] => false | _ :: _ => true end.

(** What [dns.query.udp] can do: hand back a parsed reply, or raise. *)
Inductive TransportError := TimedOut | NetworkError (errno : Z) | BadResponse.

Inductive UdpResult :=
| UdpReply (response : Message)
| UdpRaise (e : TransportError).

(** The exceptions that can leave the resolver's code: a missing
    dictionary key, [bytes.decode()] on bytes that are not UTF-8, and
    whatever the constructors of [dnslib] raise on data they reject. *)
Inductive Exn := KeyError (key : string) | UnicodeDecodeError | DnslibError.

(** What a function without side effects comes to. *)
Inductive Result (X : Type) :=
| Returns (x : X)
| Raises (e : Exn).
Arguments Returns {X} x.
Arguments Raises {X} e.

(** What a call comes to, with the state it leaves: [domain_cache] is a
    global, so what was stored before an exception stays stored. *)
Inductive Outcome (S X : Type) :=
| Done (x : X * S)
| Raise (e : Exn) (st : S)
| OutOfFuel (st : S).
Arguments Done {S X} x.
Arguments Raise {S X} e st.
Arguments OutOfFuel {S X} st.

Definition ROOT_SERVERS : list string :=
  [ "198.41.0.4"; "199.9.14.201"; "192.33.4.12"; "199.7.91.13";
    "192.203.230.10"; "192.5.5.241"; "192.112.36.4"; "198.97.190.53";
    "192.36.148.17"; "192.58.128.30"; "193.0.14.129"; "199.7.83.42";
    "202.12.27.33" ].

(** One entry of the result of [get_results]: [{"name": .., "address": ..}]. *)
Record Entry := mkEntry { name : string; address : string }.

(** A format string of [FORMATS], split at its replacement fields:
    ["{name} has address {address}"] is a field, a literal and a field. *)
Inductive Piece := Lit (text : string) | Field (key : string).

Definition FORMATS : list (string * list Piece) :=
  [ ("A", [Field "name"; Lit " has address "; Field "address"]);
    ("AAAA", [Field "name"; Lit " has IPv6 address "; Field "address"]) ].

(** [dnslib.QTYPE]: the two codes [DNSResolver.resolve] uses. *)
Module QTYPE.
Definition A : Z := 1.
Definition AAAA : Z := 28.
End QTYPE.

(** [dnslib.RR], as [resolve] builds it: [RR(rname, rtype, rdata=.., ttl=..)]
    with the class left at its default, IN.  The record data is kept as
    the address text that [A(..)] or [AAAA(..)] was given and accepted. *)
Record RR := mkRR {
  rname : string;
  rtype : Z;
  rclass : Z;
  ttl : Z;
  rdata : string
}.

(** Where a transport query was sent from: the root-server loop of [find]
    (with the cache key it ran under) or [find_recursive].  Only the
    trace uses it. *)
Inductive Site := RootLoop (domain : string) | Chaser.

Record Sent := mkSent {
  sent_site : Site;
  sent_name : Name;
  sent_qtype : Z;
  sent_ip : string;
  sent_response : option Message
}.

(** The cache, the world behind the transport, and the trace of the
    queries sent so far (oldest first). *)
Record State (World : Type) := mkState {
  domain_cache : gmap string (gmap string (option Message));
  world : World;
  trace : list Sent
}.
Arguments mkState {World} _ _ _.
Arguments domain_cache {World} _.
Arguments world {World} _.
Arguments trace {World} _.

(** What the [try]/[except Exception] of [make_request] leaves in
    [response]: the reply, or [None] for anything raised. *)
Definition reply_of (r : UdpResult) : option Message :=
  match r with
  | UdpReply m => Some m
  | UdpRaise _ => None
  end.

(** A network that raises [f e] wherever [udp] raises [e], and is [udp]
    otherwise. *)
Definition recode_errors {World} (f : TransportError -> TransportError)
    (udp : World -> Name -> Z -> string -> UdpResult * World)
    : World -> Name -> Z -> string -> UdpResult * World :=
  fun w n qtype ip =>
    match udp w n qtype ip with
    | (UdpRaise e, w') => (UdpRaise (f e), w')
    | other => other
    end.

(** ** The monad of the resolver: state, exceptions, fuel *)

Definition M (S X : Type) : Type := S -> Outcome S X.

Definition ret {S X} (x : X) : M S X := fun st => Done (x, st).

Definition bind {S X Y} (m : M S X) (k : X -> M S Y) : M S Y :=
  fun st =>
    match m st with
    | Done (x, st') => k x st'
    | Raise e st' => Raise e st'
    | OutOfFuel st' => OutOfFuel st'
    end.

Definition raise {S X} (e : Exn) : M S X := fun st => Raise e st.

Definition out_of_fuel {S X} : M S X := fun st => OutOfFuel st.

(** A function without side effects, called from one with. *)
Definition lift {S X} (r : Result X) : M S X :=
  match r with
  | Returns x => ret x
  | Raises e => raise e
  end.

Notation "x <- m ;; k" := (bind m (fun x => k))
  (at level 100, m at next level, right associativity).
Notation "m ;;; k" := (bind m (fun _ => k))
  (at level 100, right associativity).

(** The process starts with an empty cache and nothing sent. *)
Definition initial_state {World} (w : World) : State World := mkState ∅ w [].

(** ** Example networks

    Collaborators and networks to run the resolver on: a [from_text] and a
    label escaping for well-formed names, a [dnslib] that builds every
    record, and a few hand-made networks. *)
Module Net.

Definition is_digit (c : ascii) : bool := byte_between 48 57 c.

Definition escaped_byte (d1 d2 d3 : ascii) : ascii :=
  ascii_of_N (100 * (N_of_ascii d1 - 48) + 10 * (N_of_ascii d2 - 48)
              + (N_of_ascii d3 - 48)).

(** The text of a name cut into labels at its dots; an escape [\DDD] is
    the byte [DDD] and an escape [\c] is the character [c]. *)
Fixpoint split_labels (s label : string) : list string :=
  match s with
  | EmptyString => [label]
  | String c rest =>
      if Ascii.eqb c "\"%char then
        match rest with
        | EmptyString => [label]
        | String d1 rest1 =>
            match rest1 with
            | String d2 (String d3 rest3) =>
                if is_digit d1 && is_digit d2 && is_digit d3 then
                  split_labels rest3 (label ++ String (escaped_byte d1 d2 d3) "")
                else split_labels rest1 (label ++ String d1 "")
            | _ => split_labels rest1 (label ++ String d1 "")
            end
        end
      else if Ascii.eqb c "."%char then label :: split_labels rest ""
      else split_labels rest (label ++ String c "")
  end.

(** Well-formed names, made absolute as [dns.name.from_text] does. *)
Definition from_text (s : string) : Name :=
  if decide (s = ".") then mkName [""]
  else
    let ls := split_labels s "" in
    if decide (List.last ls "." = "") then mkName ls else mkName (ls ++ [""])%list.

(** The escaping of [dns.name]: a backslash before the special
    characters, [\DDD] for a byte that is not printable ASCII. *)
Definition escapify_byte (c : ascii) : string :=
  let n := N_of_ascii c in
  if existsb (N.eqb n) [34; 40; 41; 46; 59; 92; 64; 36]%N then
    String "\"%char (String c "")
  else if ((32 <? n) && (n <? 127))%N then String c ""
  else
    String "\"%char
      (String (ascii_of_N (48 + n / 100))
         (String (ascii_of_N (48 + (n / 10) mod 10))
            (String (ascii_of_N (48 + n mod 10)) ""))).

Fixpoint escapify (label : string) : string :=
  match label with
  | EmptyString => ""
  | String c rest => (escapify_byte c ++ escapify rest)%string
  end.

(** A [dnslib] that builds every record it is asked for. *)
Definition builds_all (qname : string) (rtype : Z) (address : string) : bool :=
  true.

Definition alias_name : Name := mkName ["alias"; "example"; "com"; ""].
Definition target_name : Name := mkName ["target"; "example"; "net"; ""].

Definition a_record (addr : string) : Rdata := mkRdata rdatatype.A addr.

(** A referral: no answer, one type-A glue set with the given addresses. *)
Definition referral (owner : Name) (first : string) (others : list string)
    : Message :=
  mkMessage []
    [mkRRset owner rdatatype.A (a_record first) (map a_record others)].

Definition empty_message : Message := mkMessage [] [].

Definition name_is (n : Name) (ls : list string) : bool :=
  bool_decide (labels n = ls).

(** The alias setup: the first root server refers everything to a TLD
    server, which refers to an authoritative server; there
    [alias.example.com] is a CNAME for [target.example.net], which has
    the address 93.184.216.34 and no AAAA record.  All other servers time
    out. *)
Definition tld_server : string := "10.0.0.1".
Definition auth_server : string := "10.0.0.2".

Definition alias_reply : Message :=
  mkMessage
    [mkRRset alias_name rdatatype.CNAME
       (mkRdata rdatatype.CNAME "target.example.net.") []] [].

Definition target_reply : Message :=
  mkMessage [mkRRset target_name rdatatype.A (a_record "93.184.216.34") []] [].

Definition alias_net (_ : unit) (n : Name) (qtype : Z) (ip : string)
    : UdpResult * unit :=
  if decide (ip = "198.41.0.4") then
    (UdpReply (referral (mkName ["com"; ""]) tld_server []), tt)
  else if decide (ip = tld_server) then
    (UdpReply (referral (mkName ["example"; "com"; ""]) auth_server []), tt)
  else if decide (ip = auth_server) then
    if name_is n (labels alias_name) then (UdpReply alias_reply, tt)
    else if name_is n (labels target_name) && (qtype =? rdatatype.A) then
      (UdpReply target_reply, tt)
    else (UdpReply empty_message, tt)
  else (UdpRaise TimedOut, tt).


(** A network that changes: the world counts the queries sent.  The first
    root server times out on the very first query and would answer
    afterwards; the second root server answers at once. *)
Definition host_reply (n : Name) (addr : string) : Message :=
  mkMessage [mkRRset n rdatatype.A (a_record addr) []] [].

Definition flaky_net (sent : nat) (n : Name) (qtype : Z) (ip : string)
    : UdpResult * nat :=
  if decide (ip = "198.41.0.4") then
    (match sent with
     | O => UdpRaise TimedOut
     | S _ => UdpReply (host_reply n "192.0.2.1")
     end, S sent)
  else if decide (ip = "199.9.14.201") then
    (UdpReply (host_reply n "192.0.2.2"), S sent)
  else (UdpRaise (NetworkError 101), S sent).

(** A network on which nothing replies. *)
Definition dark_net (sent : nat) (n : Name) (qtype : Z) (ip : string)
    : UdpResult * nat :=
  (UdpRaise TimedOut, S sent).

Definition a_example_com : Name := mkName ["a"; "example"; "com"; ""].
Definition b_other_com : Name := mkName ["b"; "other"; "com"; ""].

(** A name whose top-level-domain label is the one byte [80]: what
    [dns.name.from_text] makes of the text [example.\128]. *)
Definition undecodable_name : Name :=
  mkName ["example"; String "128"%char ""; ""].

(** An alias that leads to such a name: the first root server refers to
    a server that answers every question with a CNAME for
    [example.\128.]. *)
Definition undecodable_alias_net (_ : unit) (n : Name) (qtype : Z) (ip : string)
    : UdpResult * unit :=
  if decide (ip = "198.41.0.4") then
    (UdpReply (referral (mkName ["com"; ""]) tld_server []), tt)
  else if decide (ip = tld_server) then
    (UdpReply
       (mkMessage
          [mkRRset n rdatatype.CNAME (mkRdata rdatatype.CNAME "example.\128.") []]
          []), tt)
  else (UdpRaise TimedOut, tt).

(** A referral that leads back to a root server.  The first root server
    times out on the very first query and answers afterwards; the second
    root server refers everything to the address of the first. *)
Definition glue_net (sent : nat) (n : Name) (qtype : Z) (ip : string)
    : UdpResult * nat :=
  if decide (ip = "198.41.0.4") then
    (match sent with
     | O => UdpRaise TimedOut
     | S _ => UdpReply (host_reply n "192.0.2.1")
     end, S sent)
  else if decide (ip = "199.9.14.201") then
    (UdpReply (referral (mkName ["com"; ""]) "198.41.0.4" []), S sent)
  else (UdpRaise (NetworkError 101), S sent).

(** A chain of referrals: the server at [hop i] refers to [hop (i + 1)],
    and the server at [hop last] has the address.  Nothing else
    replies. *)
Definition digit_char (d : nat) : ascii := ascii_of_nat (48 + d).

Definition hop (i : nat) : string :=
  ("10.0.0." ++
   if (i <? 10)%nat then String (digit_char i) ""
   else String (digit_char (i / 10)) (String (digit_char (i mod 10)) ""))%string.


(** A ranking of the servers of [chain_net]: the hops left to the end. *)
Definition chain_rank (last : nat) (ip : string) : nat :=
  match List.find (fun i => bool_decide (ip = hop i)) (seq 0 (S last)) with
  | Some i => (last - i)%nat
  | None => 0%nat
  end.

End Net.

Section Resolver.

(** The collaborators: [dns.name.from_text], the label escaping of
    [dns.name.Name.to_text], and the network behind [dns.query.udp]. *)
Variable from_text : string -> Name.
Variable escapify : string -> string.
Variable World : Type.
Variable udp : World -> Name -> Z -> string -> UdpResult * World.

Abbreviation St := (State World).

(** [str(name)], as [dns.name.Name.to_text] computes it. *)
Definition to_text (n : Name) : string :=
  match labels n with
  | [] => "@"
  | [l] => if decide (l = "") then "." else escapify l
  | ls => String.concat "." (map escapify ls)
  end.

(** *** [get_domain_key] (lines 106-111)

    [labels[-2]] is the label before the last; [decode] fails on a label
    that is not UTF-8, and the exception leaves the function. *)
Definition get_domain_key (n : Name) : Result string :=
  let labels := labels n in
  if (length labels <? 2)%nat then Returns (to_text n)
  else
    match decode (nth (length labels - 2) labels "") with
    | Some key => Returns key
    | None => Raises UnicodeDecodeError
    end.

(** *** [make_request] (lines 73-80)

    The [try]/[except Exception] turns whatever [dns.query.udp] raises into
    [None].  [site] only labels the trace entry. *)
Definition make_request (site : Site) (target_name : Name) (qtype : Z)
    (ip_addr : string) : M St (option Message) :=
  fun st =>
    let (r, w) := udp (world st) target_name qtype ip_addr in
    let response := reply_of r in
    Done (response,
          mkState (domain_cache st) w
            (trace st ++ [mkSent site target_name qtype ip_addr response])).

(** *** The dictionary operations of [find] *)

(** [if domain not in domain_cache: domain_cache[domain] = {}] *)
Definition ensure_domain (domain : string) : M St unit :=
  fun st =>
    match domain_cache st !! domain with
    | Some _ => Done (tt, st)
    | None =>
        Done (tt, mkState (<[domain := ∅]> (domain_cache st)) (world st) (trace st))
    end.

(** [domain_cache[domain]] *)
Definition cache_row (domain : string) : M St (gmap string (option Message)) :=
  fun st =>
    match domain_cache st !! domain with
    | Some row => Done (row, st)
    | None => Raise (KeyError domain) st
    end.

(** [domain_cache[domain][root_server] = response] *)
Definition cache_store (domain root_server : string)
    (response : option Message) : M St unit :=
  fun st =>
    match domain_cache st !! domain with
    | Some row =>
        Done (tt, mkState (<[domain := <[root_server := response]> row]> (domain_cache st))
                    (world st) (trace st))
    | None => Raise (KeyError domain) st
    end.

(** Lines 53-57: the cached value if there is one, else a query whose
    outcome is stored. *)
Definition root_response (target_name : Name) (qtype : Z)
    (domain root_server : string) : M St (option Message) :=
  row <- cache_row domain ;;
  match row !! root_server with
  | Some response => ret response
  | None =>
      response <- make_request (RootLoop domain) target_name qtype root_server ;;
      cache_store domain root_server response ;;;
      ret response
  end.

(** *** The referral loops (lines 63-69 and 96-102)

    [chase] stands for [find_recursive(target_name, qtype, _)].  A loop
    yields [Some m] when it leaves through [return new_response] and
    [None] when it runs to its end. *)
Fixpoint chase_addresses (chase : string -> M St (option Message))
    (adds : list Rdata) : M St (option Message) :=
  match adds with
  | [] => ret None
  | add :: rest =>
      new_response <- chase (rd_text add) ;;
      match new_response with
      | Some m =>
          if truthy (answer m) then ret (Some m)
          else chase_addresses chase rest
      | None => chase_addresses chase rest
      end
  end.

Fixpoint chase_additional (chase : string -> M St (option Message))
    (additionals : list RRset) : M St (option Message) :=
  match additionals with
  | [] => ret None
  | additional :: rest =>
      if negb (rr_rdtype additional =? rdatatype.A) then
        chase_additional chase rest
      else
        found <- chase_addresses chase (rdatas additional) ;;
        match found with
        | Some m => ret (Some m)
        | None => chase_additional chase rest
        end
  end.

(** The body of [for root_server in ROOT_SERVERS] (lines 53-69), and the
    loop itself; falling out of the loop is [return None] (line 70). *)
Definition try_root (chase : string -> M St (option Message))
    (target_name : Name) (qtype : Z) (domain root_server : string)
    : M St (option Message) :=
  response <- root_response target_name qtype domain root_server ;;
  match response with
  | Some resp =>
      if truthy (answer resp) then ret (Some resp)
      else if truthy (additional resp) then
        chase_additional chase (additional resp)
      else ret None
  | None => ret None
  end.

Fixpoint root_loop (chase : string -> M St (option Message))
    (target_name : Name) (qtype : Z) (domain : string)
    (servers : list string) : M St (option Message) :=
  match servers with
  | [] => ret None
  | root_server :: rest =>
      found <- try_root chase target_name qtype domain root_server ;;
      match found with
      | Some m => ret (Some m)
      | None => root_loop chase target_name qtype domain rest
      end
  end.

(** Lines 90-93: the first answer set of type CNAME, unless CNAME was
    asked for. *)
Definition is_alias (qtype : Z) (answer : RRset) : bool :=
  (rr_rdtype answer =? rdatatype.CNAME) && negb (qtype =? rdatatype.CNAME).

(** *** [find] (lines 45-70) and [find_recursive] (lines 83-103) *)
Fixpoint find (fuel : nat) (target_name : Name) (qtype : Z)
    {struct fuel} : M St (option Message) :=
  match fuel with
  | O => out_of_fuel
  | S fuel =>
      domain <- lift (get_domain_key target_name) ;;
      ensure_domain domain ;;;
      root_loop (find_recursive fuel target_name qtype)
        target_name qtype domain ROOT_SERVERS
  end
with find_recursive (fuel : nat) (target_name : Name) (qtype : Z)
    (ip_addr : string) {struct fuel} : M St (option Message) :=
  match fuel with
  | O => out_of_fuel
  | S fuel =>
      response <- make_request Chaser target_name qtype ip_addr ;;
      match response with
      | None => ret None
      | Some resp =>
          if truthy (answer resp) then
            match List.find (is_alias qtype) (answer resp) with
            | Some answer =>
                let cname_target := from_text (rd_text (rr_first answer)) in
                find fuel cname_target qtype
            | None => ret (Some resp)
            end
          else if truthy (additional resp) then
            found <- chase_additional (find_recursive fuel target_name qtype)
                       (additional resp) ;;
            match found with
            | Some m => ret (Some m)
            | None => ret (Some resp)
            end
          else ret (Some resp)
      end
  end.

(** *** [get_results] (lines 26-42) *)

(** [full_response[record_type].append(entry)] *)
Definition append_entry (record_type : string) (e : Entry)
    (full_response : gmap string (list Entry)) : M St (gmap string (list Entry)) :=
  match full_response !! record_type with
  | Some l => ret (<[record_type := (l ++ [e])%list]> full_response)
  | None => raise (KeyError record_type)
  end.

(** [for answer in answers] (lines 35-40) *)
Fixpoint collect_rrset (record_type : string) (rdatatype : Z) (owner : Name)
    (answers : list Rdata) (full_response : gmap string (list Entry))
    : M St (gmap string (list Entry)) :=
  match answers with
  | [] => ret full_response
  | answer :: rest =>
      if rdtype answer =? rdatatype then
        full_response <- append_entry record_type
                           (mkEntry (to_text owner) (rd_text answer))
                           full_response ;;
        collect_rrset record_type rdatatype owner rest full_response
      else collect_rrset record_type rdatatype owner rest full_response
  end.

(** [for answers in response.answer] (lines 34-40) *)
Fixpoint collect_answer (record_type : string) (rdatatype : Z)
    (answer : list RRset) (full_response : gmap string (list Entry))
    : M St (gmap string (list Entry)) :=
  match answer with
  | [] => ret full_response
  | answers :: rest =>
      full_response <- collect_rrset record_type rdatatype (rr_name answers)
                         (rdatas answers) full_response ;;
      collect_answer record_type rdatatype rest full_response
  end.

(** [for record_type, rdatatype in [...]] (lines 31-40) *)
Fixpoint get_results_loop (fuel : nat) (target_name : Name)
    (types : list (string * Z)) (full_response : gmap string (list Entry))
    : M St (gmap string (list Entry)) :=
  match types with
  | [] => ret full_response
  | (record_type, rdatatype) :: rest =>
      response <- find fuel target_name rdatatype ;;
      full_response <-
        match response with
        | Some resp =>
            if truthy (answer resp) then
              collect_answer record_type rdatatype (answer resp) full_response
            else ret full_response
        | None => ret full_response
        end ;;
      get_results_loop fuel target_name rest full_response
  end.

Definition get_results (fuel : nat) (name : string)
    : M St (gmap string (list Entry)) :=
  let full_response : gmap string (list Entry) :=
    <["A" := []]> (<["AAAA" := []]> ∅) in
  let target_name := from_text name in
  get_results_loop fuel target_name
    [("A", rdatatype.A); ("AAAA", rdatatype.AAAA)] full_response.

(** *** [print_results] (lines 114-118)

    What is printed is a list of lines; [stdout] is what was printed
    before. *)

(** An entry unpacked into keyword arguments. *)
Definition entry_kwargs (result : Entry) : gmap string string :=
  <["name" := name result]> (<["address" := address result]> ∅).

(** [fmt_str.format] on keyword arguments *)
Fixpoint format (fmt_str : list Piece) (kwargs : gmap string string)
    : M St string :=
  match fmt_str with
  | [] => ret ""
  | Lit text :: rest =>
      tail <- format rest kwargs ;;
      ret (text ++ tail)%string
  | Field key :: rest =>
      match kwargs !! key with
      | Some value =>
          tail <- format rest kwargs ;;
          ret (value ++ tail)%string
      | None => raise (KeyError key)
      end
  end.

(** [for result in results.get(rtype, [])]: print the formatted entry *)
Fixpoint print_entries (fmt_str : list Piece) (entries : list Entry)
    (stdout : list string) : M St (list string) :=
  match entries with
  | [] => ret stdout
  | result :: rest =>
      line <- format fmt_str (entry_kwargs result) ;;
      print_entries fmt_str rest (stdout ++ [line])%list
  end.

(** [for rtype, fmt_str in FORMATS] *)
Fixpoint print_formats (formats : list (string * list Piece))
    (results : gmap string (list Entry)) (stdout : list string)
    : M St (list string) :=
  match formats with
  | [] => ret stdout
  | (rtype, fmt_str) :: rest =>
      stdout <- print_entries fmt_str (default [] (results !! rtype)) stdout ;;
      print_formats rest results stdout
  end.

Definition print_results (results : gmap string (list Entry))
    (stdout : list string) : M St (list string) :=
  print_formats FORMATS results stdout.

(** *** [DNSResolver.resolve] (lines 124-137)

    The request is its [qname] as text, [str(request.q.qname)]; the reply
    is its list of answers, empty in [request.reply()]. *)

(** [for rec in ..: reply.add_answer(RR(qname, rtype, rdata=.., ttl=60))]

    [builds qname rtype address] says whether [dnslib] builds
    [RR(qname, rtype, rdata=A(address), ttl=60)] (or the same with
    [AAAA(address)]) or one of the constructors raises: [A] and [AAAA]
    parse the address text and [RR] the name. *)
Fixpoint add_answers (builds : string -> Z -> string -> bool)
    (qname : string) (rtype : Z) (recs : list Entry)
    (reply : list RR) : M St (list RR) :=
  match recs with
  | [] => ret reply
  | rec :: rest =>
      if builds qname rtype (address rec) then
        add_answers builds qname rtype rest
          (reply ++ [mkRR qname rtype 1 60 (address rec)])%list
      else raise DnslibError
  end.

(** [result[key]] *)
Definition result_item (result : gmap string (list Entry)) (key : string)
    : M St (list Entry) :=
  match result !! key with
  | Some recs => ret recs
  | None => raise (KeyError key)
  end.

Definition resolve (builds : string -> Z -> string -> bool)
    (fuel : nat) (qname : string) (stdout : list string)
    : M St (list RR * list string) :=
  let reply : list RR := [] in
  result <- get_results fuel qname ;;
  recs <- result_item result "A" ;;
  reply <- add_answers builds qname QTYPE.A recs reply ;;
  recs <- result_item result "AAAA" ;;
  reply <- add_answers builds qname QTYPE.AAAA recs reply ;;
  let stdout := (stdout ++ [("Запрос: " ++ qname)%string])%list in
  stdout <- print_results result stdout ;;
  ret (reply, stdout).

(** ** Vocabulary of the statements *)

(** What the design document says [get_results] collects for one record
    type: for each answer record of the located message whose type is the
    requested one, the pair of the owner name and the record's value. *)
Definition records_of_type (rdatatype : Z) (located : option Message)
    : list Entry :=
  match located with
  | Some resp =>
      flat_map
        (fun answers =>
           map (fun answer => mkEntry (to_text (rr_name answers)) (rd_text answer))
             (filter (fun answer => rdtype answer = rdatatype) (rdatas answers)))
        (answer resp)
  | None => []
  end.

(** The addresses a referral offers: the records of its type-A additional
    sets, in the order listed. *)
Definition glue_addresses (additionals : list RRset) : list string :=
  flat_map
    (fun additional =>
       if rr_rdtype additional =? rdatatype.A
       then map rd_text (rdatas additional) else [])
    additionals.

(** "For each address, invoke the chaser; return the first result that has
    answer records." *)
Fixpoint first_match (chase : string -> M St (option Message))
    (ips : list string) : M St (option Message) :=
  match ips with
  | [] => ret None
  | ip :: rest =>
      r <- chase ip ;;
      match r with
      | Some m => if truthy (answer m) then ret (Some m) else first_match chase rest
      | None => first_match chase rest
      end
  end.

(** The cache entry of a (key, root server) pair: [None] when the pair is
    not in the cache, [Some None] when a failure is recorded. *)
Definition cached (st : St) (domain root_server : string)
    : option (option Message) :=
  match domain_cache st !! domain with
  | Some row => row !! root_server
  | None => None
  end.

(** The outcomes of the queries the root-server loop sent to
    [root_server] under the key [domain], oldest first. *)
Definition is_root_query (domain root_server : string) (q : Sent) : bool :=
  match sent_site q with
  | RootLoop d => bool_decide (d = domain) && bool_decide (sent_ip q = root_server)
  | Chaser => false
  end.

Definition root_outcomes (domain root_server : string) (tr : list Sent)
    : list (option Message) :=
  map sent_response (List.filter (is_root_query domain root_server) tr).

(** The cache and the trace agree: a pair is cached exactly when the root
    loop has queried it, once, and the entry is what that query gave. *)
Definition cache_matches_trace (st : St) : Prop :=
  forall domain root_server,
    root_outcomes domain root_server (trace st) =
    match cached st domain root_server with
    | Some v => [v]
    | None => []
    end.

(** [st'] keeps every row and every entry of [st]. *)
Definition extends (st st' : St) : Prop :=
  (forall domain, is_Some (domain_cache st !! domain) ->
                  is_Some (domain_cache st' !! domain)) /\
  (forall domain root_server v,
     cached st domain root_server = Some v ->
     cached st' domain root_server = Some v).

(** A computation that, started where [P] holds, moves the state along
    [R] however it ends, and raises nothing but the decoding error of
    [get_domain_key]. *)
Definition respects (R : St -> St -> Prop) (P : St -> Prop) {X} (m : M St X)
    : Prop :=
  forall st, P st ->
    match m st with
    | Done (_, st') => R st st'
    | Raise e st' => e = UnicodeDecodeError /\ R st st'
    | OutOfFuel st' => R st st'
    end.

Definition row_present (domain : string) (st : St) : Prop :=
  is_Some (domain_cache st !! domain).

(** The state a call leaves the process in, however it ended. *)
Definition leaves {X} (o : Outcome St X) (st' : St) : Prop :=
  match o with
  | Done (_, st) => st = st'
  | Raise _ st => st = st'
  | OutOfFuel st => st = st'
  end.

(** [later st st']: the process can get from [st] to [st'] by calls of the
    resolver that follow one another, each returning, raising or cut
    short, the network changing as it likes in between. *)
Inductive later : St -> St -> Prop :=
| later_now st : later st st
| later_find st fuel target_name qtype st1 st2 :
    leaves (find fuel target_name qtype st) st1 ->
    later st1 st2 -> later st st2
| later_find_recursive st fuel target_name qtype ip_addr st1 st2 :
    leaves (find_recursive fuel target_name qtype ip_addr st) st1 ->
    later st1 st2 -> later st st2
| later_get_results st fuel name st1 st2 :
    leaves (get_results fuel name st) st1 ->
    later st1 st2 -> later st st2
| later_network st w st2 :
    later (mkState (domain_cache st) w (trace st)) st2 -> later st st2.

(** Two requests in the root loop at the same key and root server, served
    by two threads: both have found the pair missing (line 53) before
    either has stored (line 57), so both send their query (line 56) and
    both store what they got. *)
Definition raced_root_response (name1 : Name) (qtype1 : Z) (name2 : Name)
    (qtype2 : Z) (domain root_server : string)
    : M St (option Message * option Message) :=
  response1 <- make_request (RootLoop domain) name1 qtype1 root_server ;;
  response2 <- make_request (RootLoop domain) name2 qtype2 root_server ;;
  cache_store domain root_server response1 ;;;
  cache_store domain root_server response2 ;;;
  ret (response1, response2).

(** The answer records of one set that have the requested type, as entries. *)
Definition entries_of (rdatatype : Z) (answers : RRset) : list Entry :=
  map (fun answer => mkEntry (to_text (rr_name answers)) (rd_text answer))
    (filter (fun answer => rdtype answer = rdatatype) (rdatas answers)).

(** What is left to do after a search that may have found something. *)
Definition or_else {X} (o : Outcome St (option X))
    (next : St -> Outcome St (option X)) : Outcome St (option X) :=
  match o with
  | Done (None, st) => next st
  | other => other
  end.

(** [st'] keeps what [st] has, and agrees with its trace if [st] did. *)
Definition maintains (st st' : St) : Prop :=
  extends st st' /\ (cache_matches_trace st -> cache_matches_trace st').

(** The lines [print_results] prints for one entry. *)
Definition address_line (result : Entry) : string :=
  (name result ++ " has address " ++ address result)%string.

Definition ipv6_line (result : Entry) : string :=
  (name result ++ " has IPv6 address " ++ address result)%string.

(** A query as the resolver sends it: from the root loop only to a root
    server, under the key of the name asked for. *)
Definition well_sited (q : Sent) : Prop :=
  match sent_site q with
  | RootLoop domain =>
      get_domain_key (sent_name q) = Returns domain /\ In (sent_ip q) ROOT_SERVERS
  | Chaser => True
  end.

Definition well_sent (qtype : Z) (q : Sent) : Prop :=
  sent_qtype q = qtype /\ well_sited q.

(** The queries that the root loop sent under the key [domain]. *)
Definition sent_under (domain : string) (q : Sent) : bool :=
  match sent_site q with
  | RootLoop d => bool_decide (d = domain)
  | Chaser => false
  end.

(** Every cache row holds entries for root servers only. *)
Definition root_rows (st : St) : Prop :=
  forall domain root_server v,
    cached st domain root_server = Some v -> In root_server ROOT_SERVERS.

(** [st'] keeps the cache entries of [st]; what was sent in between are
    well-sited queries of type [qtype]. *)
Definition sends (qtype : Z) (st st' : St) : Prop :=
  extends st st' /\
  (exists new, trace st' = (trace st ++ new)%list /\ Forall (well_sent qtype) new) /\
  (root_rows st -> root_rows st').

(** A cache entry the root loop gets nothing from: a recorded failure, or a
    reply with no answer and no type-A additional address. *)
Definition dead_entry (v : option Message) : Prop :=
  match v with
  | None => True
  | Some resp => answer resp = [] /\ glue_addresses (additional resp) = []
  end.

(** [o1 ⊑ o2]: more fuel can only turn [OutOfFuel] into a result. *)
Definition refines {X} (o1 o2 : Outcome St X) : Prop :=
  (exists st, o1 = OutOfFuel st) \/ o1 = o2.

(** The calls as relations between states, free of fuel. *)
Definition find_returns (target_name : Name) (qtype : Z) (st : St)
    (r : option Message) (st' : St) : Prop :=
  exists fuel, find fuel target_name qtype st = Done (r, st').

Definition find_recursive_returns (target_name : Name) (qtype : Z)
    (ip_addr : string) (st : St) (r : option Message) (st' : St) : Prop :=
  exists fuel, find_recursive fuel target_name qtype ip_addr st = Done (r, st').

Definition get_results_returns (name : string) (st : St)
    (r : gmap string (list Entry)) (st' : St) : Prop :=
  exists fuel, get_results fuel name st = Done (r, st').

(** ** Basic facts about the monad and the loops *)

Lemma find_unfold fuel target_name qtype :
  find (S fuel) target_name qtype =
  (domain <- lift (get_domain_key target_name) ;;
   ensure_domain domain ;;;
   root_loop (find_recursive fuel target_name qtype) target_name qtype
     domain ROOT_SERVERS).
Proof. reflexivity. Qed.

Lemma find_recursive_unfold fuel target_name qtype ip_addr :
  find_recursive (S fuel) target_name qtype ip_addr =
  (response <- make_request Chaser target_name qtype ip_addr ;;
   match response with
   | None => ret None
   | Some resp =>
       if truthy (answer resp) then
         match List.find (is_alias qtype) (answer resp) with
         | Some answer => find fuel (from_text (rd_text (rr_first answer))) qtype
         | None => ret (Some resp)
         end
       else if truthy (additional resp) then
         found <- chase_additional (find_recursive fuel target_name qtype)
                    (additional resp) ;;
         match found with
         | Some m => ret (Some m)
         | None => ret (Some resp)
         end
       else ret (Some resp)
   end).
Proof. reflexivity. Qed.

(** [get_domain_key] raises nothing but the decoding error. *)
Lemma get_domain_key_raises n e :
  get_domain_key n = Raises e -> e = UnicodeDecodeError.
Proof.
  unfold get_domain_key.
  destruct (length (labels n) <? 2)%nat; [discriminate |].
  destruct (decode _); [discriminate |]. now intros [= <-].
Qed.

(** [find] on a name that has a key, and on one that has none. *)
Lemma find_with_key fuel target_name qtype domain st :
  get_domain_key target_name = Returns domain ->
  find (S fuel) target_name qtype st =
  (ensure_domain domain ;;;
   root_loop (find_recursive fuel target_name qtype) target_name qtype
     domain ROOT_SERVERS) st.
Proof. intros H. rewrite find_unfold. unfold bind at 1. now rewrite H. Qed.

Lemma find_without_key fuel target_name qtype e st :
  get_domain_key target_name = Raises e ->
  find (S fuel) target_name qtype st = Raise e st.
Proof. intros H. rewrite find_unfold. unfold bind at 1. now rewrite H. Qed.

Lemma refines_refl {X} (o : Outcome St X) : refines o o.
Proof. now right. Qed.

Lemma refines_done {X} (o1 o2 : Outcome St X) x :
  refines o1 o2 -> o1 = Done x -> o2 = Done x.
Proof. intros [[st H] | H] E; congruence. Qed.

Lemma refines_raise {X} (o1 o2 : Outcome St X) e st :
  refines o1 o2 -> o1 = Raise e st -> o2 = Raise e st.
Proof. intros [[st0 H] | H] E; congruence. Qed.

Lemma bind_refines {X Y} (m m' : M St X) (k k' : X -> M St Y) st :
  refines (m st) (m' st) ->
  (forall x st1, refines (k x st1) (k' x st1)) ->
  refines (bind m k st) (bind m' k' st).
Proof.
  unfold bind. intros [[st0 H] | H] Hk.
  - rewrite H. left. eauto.
  - rewrite H. destruct (m' st) as [[x st1] | e st1 | st1]; auto using refines_refl.
Qed.

Lemma chase_addresses_refines chase chase' adds :
  (forall ip st, refines (chase ip st) (chase' ip st)) ->
  forall st, refines (chase_addresses chase adds st) (chase_addresses chase' adds st).
Proof.
  intros Hc. induction adds as [| add rest IH]; intros st; cbn [chase_addresses].
  - apply refines_refl.
  - apply bind_refines; [apply Hc |].
    intros [m |] st1; [destruct (truthy (answer m)) |]; auto using refines_refl.
Qed.

Lemma chase_additional_refines chase chase' additionals :
  (forall ip st, refines (chase ip st) (chase' ip st)) ->
  forall st,
    refines (chase_additional chase additionals st)
            (chase_additional chase' additionals st).
Proof.
  intros Hc. induction additionals as [| a rest IH]; intros st; cbn [chase_additional].
  - apply refines_refl.
  - destruct (negb (rr_rdtype a =? rdatatype.A)); [apply IH |].
    apply bind_refines; [now apply chase_addresses_refines |].
    intros [m |] st1; auto using refines_refl.
Qed.

Lemma try_root_refines chase chase' target_name qtype domain root_server :
  (forall ip st, refines (chase ip st) (chase' ip st)) ->
  forall st,
    refines (try_root chase target_name qtype domain root_server st)
            (try_root chase' target_name qtype domain root_server st).
Proof.
  intros Hc st. unfold try_root. apply bind_refines; [apply refines_refl |].
  intros [resp |] st1; [| apply refines_refl].
  destruct (truthy (answer resp)); [apply refines_refl |].
  destruct (truthy (additional resp)); [| apply refines_refl].
  now apply chase_additional_refines.
Qed.

Lemma root_loop_refines chase chase' target_name qtype domain servers :
  (forall ip st, refines (chase ip st) (chase' ip st)) ->
  forall st,
    refines (root_loop chase target_name qtype domain servers st)
            (root_loop chase' target_name qtype domain servers st).
Proof.
  intros Hc. induction servers as [| s rest IH]; intros st; cbn [root_loop].
  - apply refines_refl.
  - apply bind_refines; [now apply try_root_refines |].
    intros [m |] st1; auto using refines_refl.
Qed.

(** One more unit of fuel never changes a result. *)
Lemma fuel_step fuel :
  (forall target_name qtype st,
     refines (find fuel target_name qtype st)
             (find (S fuel) target_name qtype st)) /\
  (forall target_name qtype ip_addr st,
     refines (find_recursive fuel target_name qtype ip_addr st)
             (find_recursive (S fuel) target_name qtype ip_addr st)).
Proof.
  induction fuel as [| fuel [IHf IHr]].
  - split; intros; left; cbn; eauto.
  - split.
    + intros target_name qtype st.
      change (find (S fuel) target_name qtype) with
        (domain <- lift (get_domain_key target_name) ;;
         ensure_domain domain ;;;
         root_loop (find_recursive fuel target_name qtype) target_name qtype
           domain ROOT_SERVERS).
      change (find (S (S fuel)) target_name qtype) with
        (domain <- lift (get_domain_key target_name) ;;
         ensure_domain domain ;;;
         root_loop (find_recursive (S fuel) target_name qtype) target_name qtype
           domain ROOT_SERVERS).
      apply bind_refines; [apply refines_refl |].
      intros domain st0.
      apply bind_refines; [apply refines_refl |].
      intros _ st1. apply root_loop_refines. intros ip st2. apply IHr.
    + intros target_name qtype ip_addr st.
      cbn [find_recursive].
      apply bind_refines; [apply refines_refl |].
      intros [resp |] st1; [| apply refines_refl].
      destruct (truthy (answer resp)).
      * destruct (List.find (is_alias qtype) (answer resp)); [apply IHf | apply refines_refl].
      * destruct (truthy (additional resp)); [| apply refines_refl].
        apply bind_refines.
        -- apply chase_additional_refines. intros ip st2. apply IHr.
        -- intros [m |] st2; apply refines_refl.
Qed.

Lemma refines_trans {X} (o1 o2 o3 : Outcome St X) :
  refines o1 o2 -> refines o2 o3 -> refines o1 o3.
Proof. intros [H | H] [H' | H']; subst; unfold refines; auto. Qed.

Lemma find_more_fuel fuel fuel' target_name qtype st :
  (fuel <= fuel')%nat ->
  refines (find fuel target_name qtype st) (find fuel' target_name qtype st).
Proof.
  induction 1 as [| fuel' _ IH]; [apply refines_refl |].
  eapply refines_trans; [exact IH | apply fuel_step].
Qed.

Lemma find_recursive_more_fuel fuel fuel' target_name qtype ip_addr st :
  (fuel <= fuel')%nat ->
  refines (find_recursive fuel target_name qtype ip_addr st)
          (find_recursive fuel' target_name qtype ip_addr st).
Proof.
  induction 1 as [| fuel' _ IH]; [apply refines_refl |].
  eapply refines_trans; [exact IH | apply fuel_step].
Qed.

(** A call that returns has one result: the fuel does not matter. *)
Lemma find_returns_more_fuel fuel fuel' target_name qtype st r :
  (fuel <= fuel')%nat ->
  find fuel target_name qtype st = Done r ->
  find fuel' target_name qtype st = Done r.
Proof. intros Hle. apply refines_done. now apply find_more_fuel. Qed.

Lemma find_recursive_returns_more_fuel fuel fuel' target_name qtype ip_addr st r :
  (fuel <= fuel')%nat ->
  find_recursive fuel target_name qtype ip_addr st = Done r ->
  find_recursive fuel' target_name qtype ip_addr st = Done r.
Proof. intros Hle. apply refines_done. now apply find_recursive_more_fuel. Qed.

Lemma find_returns_functional target_name qtype st r1 st1 r2 st2 :
  find_returns target_name qtype st r1 st1 ->
  find_returns target_name qtype st r2 st2 ->
  r1 = r2 /\ st1 = st2.
Proof.
  intros [f1 H1] [f2 H2].
  apply (find_returns_more_fuel f1 (Nat.max f1 f2)) in H1; [| lia].
  apply (find_returns_more_fuel f2 (Nat.max f1 f2)) in H2; [| lia].
  rewrite H1 in H2. now inversion H2.
Qed.

(** ** A rule for relations every step of the resolver maintains

    If the three steps that touch the state ([make_request] from the
    chaser, [ensure_domain], [root_response]) move it along a preorder [R]
    that keeps cache rows, then so do [find] and [find_recursive], however
    they end, and no exception leaves them but the decoding error of
    [get_domain_key]. *)
Section Maintained.

Variable R : St -> St -> Prop.
Hypothesis R_refl : forall st, R st st.
Hypothesis R_trans : forall st1 st2 st3, R st1 st2 -> R st2 st3 -> R st1 st3.
Hypothesis R_rows : forall domain st st',
  R st st' -> row_present domain st -> row_present domain st'.
Hypothesis R_make_request : forall target_name qtype ip_addr,
  respects R (fun _ => True) (make_request Chaser target_name qtype ip_addr).
Hypothesis R_ensure_domain : forall domain,
  respects R (fun _ => True) (ensure_domain domain).
Hypothesis R_root_response : forall target_name qtype domain root_server,
  respects R (row_present domain)
    (root_response target_name qtype domain root_server).

Lemma respects_ret P {X} (x : X) : respects R P (ret x).
Proof. intros st _. apply R_refl. Qed.

Lemma respects_bind (P : St -> Prop) {X Y} (m : M St X) (k : X -> M St Y) :
  (forall st st', P st -> R st st' -> P st') ->
  respects R P m -> (forall x, respects R P (k x)) ->
  respects R P (bind m k).
Proof.
  intros HP Hm Hk st Hst. unfold bind.
  specialize (Hm st Hst). destruct (m st) as [[x st1] | e st1 | st1]; auto.
  specialize (Hk x st1 (HP _ _ Hst Hm)).
  destruct (k x st1) as [[y st2] | e st2 | st2]; [eauto | | eauto].
  destruct Hk as [He HR]. split; eauto.
Qed.

Lemma respects_weaken (P : St -> Prop) {X} (m : M St X) :
  respects R (fun _ => True) m -> respects R P m.
Proof. intros H st _. now apply H. Qed.

Lemma row_present_stable domain st st' :
  row_present domain st -> R st st' -> row_present domain st'.
Proof. intros H HR. eapply R_rows; eauto. Qed.

Section Loops.

Variable chase : string -> M St (option Message).
Hypothesis chase_ok : forall ip, respects R (fun _ => True) (chase ip).
Variable P : St -> Prop.
Hypothesis P_stable : forall st st', P st -> R st st' -> P st'.

Lemma chase_addresses_respects adds : respects R P (chase_addresses chase adds).
Proof.
  induction adds as [| add rest IH]; cbn [chase_addresses].
  - apply respects_ret.
  - apply respects_bind; [exact P_stable | apply respects_weaken, chase_ok |].
    intros [m |]; [destruct (truthy (answer m)) |]; auto using respects_ret.
Qed.

Lemma chase_additional_respects additionals :
  respects R P (chase_additional chase additionals).
Proof.
  induction additionals as [| a rest IH]; cbn [chase_additional].
  - apply respects_ret.
  - destruct (negb (rr_rdtype a =? rdatatype.A)); [exact IH |].
    apply respects_bind; [exact P_stable | apply chase_addresses_respects |].
    intros [m |]; auto using respects_ret.
Qed.

End Loops.

Lemma try_root_respects chase target_name qtype domain root_server :
  (forall ip, respects R (fun _ => True) (chase ip)) ->
  respects R (row_present domain)
    (try_root chase target_name qtype domain root_server).
Proof.
  intros Hc. unfold try_root.
  apply respects_bind; [apply row_present_stable | apply R_root_response |].
  intros [resp |]; [| apply respects_ret].
  destruct (truthy (answer resp)); [apply respects_ret |].
  destruct (truthy (additional resp)); [| apply respects_ret].
  apply chase_additional_respects; [exact Hc | apply row_present_stable].
Qed.

Lemma root_loop_respects chase target_name qtype domain servers :
  (forall ip, respects R (fun _ => True) (chase ip)) ->
  respects R (row_present domain)
    (root_loop chase target_name qtype domain servers).
Proof.
  intros Hc. induction servers as [| s rest IH]; cbn [root_loop].
  - apply respects_ret.
  - apply respects_bind;
      [apply row_present_stable | now apply try_root_respects |].
    intros [m |]; auto using respects_ret.
Qed.

Lemma ensure_domain_row domain st :
  exists st', ensure_domain domain st = Done (tt, st') /\ row_present domain st'.
Proof.
  unfold ensure_domain, row_present.
  destruct (domain_cache st !! domain) as [row |] eqn:E.
  - exists st. rewrite E. eauto.
  - eexists. split; [reflexivity |]. cbn. rewrite lookup_insert_eq. eauto.
Qed.

Lemma find_respects fuel :
  (forall target_name qtype,
     respects R (fun _ => True) (find fuel target_name qtype)) /\
  (forall target_name qtype ip_addr,
     respects R (fun _ => True) (find_recursive fuel target_name qtype ip_addr)).
Proof.
  induction fuel as [| fuel [IHf IHr]];
    [split; intros; intros st _; apply R_refl |].
  split.
  - intros target_name qtype st _.
    destruct (get_domain_key target_name) as [domain | e] eqn:Hkey.
    + rewrite (find_with_key _ _ _ domain) by assumption. unfold bind.
      destruct (ensure_domain_row domain st) as (st0 & E & Hrow).
      pose proof (R_ensure_domain domain st I) as H0.
      rewrite E in *.
      pose proof (root_loop_respects (find_recursive fuel target_name qtype)
                    target_name qtype domain ROOT_SERVERS
                    (IHr target_name qtype) st0 Hrow) as H1.
      destruct (root_loop _ _ _ _ _ st0) as [[r st1] | e st1 | st1];
        [eauto | | eauto].
      destruct H1 as [He HR]. split; eauto.
    + rewrite (find_without_key _ _ _ e) by assumption.
      split; [eapply get_domain_key_raises; eauto | apply R_refl].
  - intros target_name qtype ip_addr. rewrite find_recursive_unfold.
    apply respects_bind; [auto | apply R_make_request |].
    intros [resp |]; [| apply respects_ret].
    destruct (truthy (answer resp)).
    + destruct (List.find (is_alias qtype) (answer resp));
        [apply IHf | apply respects_ret].
    + destruct (truthy (additional resp)); [| apply respects_ret].
      apply respects_bind; [auto | |].
      * apply chase_additional_respects; [apply IHr | auto].
      * intros [m |]; apply respects_ret.
Qed.

End Maintained.

Lemma respects_leaves (R : St -> St -> Prop) (P : St -> Prop) {X}
    (m : M St X) st st' :
  respects R P m -> P st -> leaves (m st) st' -> R st st'.
Proof.
  intros Hm Hst Hl. specialize (Hm st Hst). unfold leaves in Hl.
  destruct (m st) as [[x st1] | e st1 | st1]; subst; tauto.
Qed.

Lemma done_leaves {X} (o : Outcome St X) x st :
  o = Done (x, st) -> leaves o st.
Proof. now intros ->. Qed.

(** ** The steps that touch the state *)

Lemma make_request_eq site target_name qtype ip_addr st :
  make_request site target_name qtype ip_addr st =
  Done (reply_of (udp (world st) target_name qtype ip_addr).1,
        mkState (domain_cache st)
          (udp (world st) target_name qtype ip_addr).2
          (trace st ++ [mkSent site target_name qtype ip_addr
                          (reply_of (udp (world st) target_name qtype ip_addr).1)])).
Proof.
  unfold make_request.
  destruct (udp (world st) target_name qtype ip_addr) as [[m | e] w]; reflexivity.
Qed.

Lemma root_response_hit target_name qtype domain root_server st v :
  cached st domain root_server = Some v ->
  root_response target_name qtype domain root_server st = Done (v, st).
Proof.
  unfold cached, root_response, bind, cache_row.
  destruct (domain_cache st !! domain) as [row |]; [| discriminate].
  intros ->. reflexivity.
Qed.

Lemma root_response_miss target_name qtype domain root_server st row :
  domain_cache st !! domain = Some row ->
  row !! root_server = None ->
  root_response target_name qtype domain root_server st =
  let r := udp (world st) target_name qtype root_server in
  Done (reply_of r.1,
        mkState (<[domain := <[root_server := reply_of r.1]> row]> (domain_cache st))
          r.2
          (trace st ++ [mkSent (RootLoop domain) target_name qtype root_server
                          (reply_of r.1)])).
Proof.
  intros Hrow Hmiss. unfold root_response, bind, cache_row.
  rewrite Hrow, Hmiss, make_request_eq. unfold cache_store. cbn.
  rewrite Hrow. reflexivity.
Qed.

Lemma cached_insert_row (c : gmap string (gmap string (option Message)))
    w tr domain root_server v row d s :
  c !! domain = Some row ->
  cached (mkState (<[domain := <[root_server := v]> row]> c) w tr) d s =
  if decide (d = domain /\ s = root_server) then Some v
  else cached (mkState c w tr) d s.
Proof.
  intros Hrow. unfold cached. cbn.
  destruct (decide (d = domain)) as [-> | Hd].
  - rewrite lookup_insert_eq, Hrow.
    destruct (decide (s = root_server)) as [-> | Hs].
    + rewrite lookup_insert_eq. now rewrite decide_True.
    + rewrite lookup_insert_ne by congruence.
      rewrite decide_False by tauto. reflexivity.
  - rewrite lookup_insert_ne by congruence.
    rewrite decide_False by tauto. reflexivity.
Qed.

Lemma root_outcomes_snoc domain root_server tr q :
  root_outcomes domain root_server (tr ++ [q]) =
  (root_outcomes domain root_server tr ++
   if is_root_query domain root_server q then [sent_response q] else [])%list.
Proof.
  unfold root_outcomes. rewrite List.filter_app, map_app. cbn.
  now destruct (is_root_query domain root_server q).
Qed.

(** *** [extends] is maintained *)

Lemma extends_refl st : extends st st.
Proof. split; auto. Qed.

Lemma extends_trans st1 st2 st3 :
  extends st1 st2 -> extends st2 st3 -> extends st1 st3.
Proof. intros [A1 B1] [A2 B2]. split; auto. Qed.

Lemma extends_rows domain st st' :
  extends st st' -> row_present domain st -> row_present domain st'.
Proof. intros [A _]. apply A. Qed.

Lemma make_request_extends site target_name qtype ip_addr :
  respects extends (fun _ => True) (make_request site target_name qtype ip_addr).
Proof. intros st _. rewrite make_request_eq. split; auto. Qed.

Lemma ensure_domain_extends domain :
  respects extends (fun _ => True) (ensure_domain domain).
Proof.
  intros st _. unfold ensure_domain.
  destruct (domain_cache st !! domain) as [row |] eqn:E; [apply extends_refl |].
  split.
  - intros d [row Hd]. cbn.
    destruct (decide (d = domain)) as [-> | Hne]; [congruence |].
    rewrite lookup_insert_ne by congruence. eauto.
  - intros d s v. unfold cached. cbn.
    destruct (decide (d = domain)) as [-> | Hne].
    + now rewrite E.
    + now rewrite lookup_insert_ne by congruence.
Qed.

Lemma root_response_extends target_name qtype domain root_server :
  respects extends (row_present domain)
    (root_response target_name qtype domain root_server).
Proof.
  intros st [row Hrow].
  destruct (row !! root_server) as [v |] eqn:E.
  - rewrite (root_response_hit _ _ _ _ _ v); [apply extends_refl |].
    unfold cached. now rewrite Hrow.
  - rewrite (root_response_miss _ _ _ _ _ row) by assumption. cbv zeta.
    split.
    + intros d [rw Hd]. cbn.
      destruct (decide (d = domain)) as [-> | Hne].
      * rewrite lookup_insert_eq. eauto.
      * rewrite lookup_insert_ne by congruence. eauto.
    + intros d s v Hc. rewrite cached_insert_row by assumption.
      destruct (decide (d = domain /\ s = root_server)) as [[-> ->] | Hne].
      * unfold cached in Hc. rewrite Hrow in Hc. congruence.
      * destruct st; exact Hc.
Qed.

Lemma find_extends fuel target_name qtype st r st' :
  find fuel target_name qtype st = Done (r, st') -> extends st st'.
Proof.
  intros H.
  pose proof (proj1 (find_respects extends extends_refl extends_trans
    extends_rows (make_request_extends Chaser) ensure_domain_extends
    root_response_extends fuel) target_name qtype st I) as Hr.
  now rewrite H in Hr.
Qed.

Lemma find_recursive_extends fuel target_name qtype ip_addr st r st' :
  find_recursive fuel target_name qtype ip_addr st = Done (r, st') ->
  extends st st'.
Proof.
  intros H.
  pose proof (proj2 (find_respects extends extends_refl extends_trans
    extends_rows (make_request_extends Chaser) ensure_domain_extends
    root_response_extends fuel) target_name qtype ip_addr st I) as Hr.
  now rewrite H in Hr.
Qed.


Lemma find_recursive_raises_decode fuel target_name qtype ip_addr st e st' :
  find_recursive fuel target_name qtype ip_addr st = Raise e st' ->
  e = UnicodeDecodeError.
Proof.
  intros H.
  pose proof (proj2 (find_respects extends extends_refl extends_trans
    extends_rows (make_request_extends Chaser) ensure_domain_extends
    root_response_extends fuel) target_name qtype ip_addr st I) as Hr.
  rewrite H in Hr. apply Hr.
Qed.

(** *** The agreement of cache and trace is maintained *)

Lemma maintains_refl st : maintains st st.
Proof. split; [apply extends_refl | auto]. Qed.

Lemma maintains_trans st1 st2 st3 :
  maintains st1 st2 -> maintains st2 st3 -> maintains st1 st3.
Proof. intros [A1 B1] [A2 B2]. split; [eapply extends_trans; eauto | auto]. Qed.

Lemma maintains_rows domain st st' :
  maintains st st' -> row_present domain st -> row_present domain st'.
Proof. intros [A _]. now apply extends_rows. Qed.

Lemma make_request_maintains target_name qtype ip_addr :
  respects maintains (fun _ => True) (make_request Chaser target_name qtype ip_addr).
Proof.
  intros st _. pose proof (make_request_extends Chaser target_name qtype ip_addr st I) as H.
  rewrite make_request_eq in *. split; [exact H |].
  intros Hinv d s. cbn [trace]. rewrite root_outcomes_snoc. cbn.
  rewrite app_nil_r. apply Hinv.
Qed.

Lemma ensure_domain_cached domain st d s :
  match ensure_domain domain st with
  | Done (_, st') => cached st' d s = cached st d s /\ trace st' = trace st
  | _ => False
  end.
Proof.
  unfold ensure_domain.
  destruct (domain_cache st !! domain) as [row |] eqn:E; [auto |].
  split; [| reflexivity]. unfold cached. cbn.
  destruct (decide (d = domain)) as [-> | Hne].
  - rewrite lookup_insert_eq, E. apply lookup_empty.
  - now rewrite lookup_insert_ne by congruence.
Qed.

Lemma ensure_domain_maintains domain :
  respects maintains (fun _ => True) (ensure_domain domain).
Proof.
  intros st _. pose proof (ensure_domain_extends domain st I) as H.
  pose proof (ensure_domain_cached domain st) as Hc.
  destruct (ensure_domain domain st) as [[[] st'] | e st' | st'];
    [| destruct (Hc "" "") ..].
  split; [exact H |]. intros Hinv d s.
  destruct (Hc d s) as [-> ->]. apply Hinv.
Qed.

Lemma root_response_maintains target_name qtype domain root_server :
  respects maintains (row_present domain)
    (root_response target_name qtype domain root_server).
Proof.
  intros st Hp.
  pose proof (root_response_extends target_name qtype domain root_server st Hp) as H.
  destruct Hp as [row Hrow].
  destruct (row !! root_server) as [v |] eqn:E.
  - rewrite (root_response_hit _ _ _ _ _ v) in *;
      [apply maintains_refl | unfold cached; now rewrite Hrow ..].
  - rewrite (root_response_miss _ _ _ _ _ row) in * by assumption.
    cbv zeta in *. split; [exact H |].
    intros Hinv d s. cbn [trace]. rewrite root_outcomes_snoc.
    rewrite cached_insert_row by assumption.
    specialize (Hinv d s). unfold is_root_query. cbn [sent_site sent_ip sent_response].
    destruct (decide (d = domain /\ s = root_server)) as [[-> ->] | Hne].
    + rewrite !bool_decide_eq_true_2 by reflexivity. cbn.
      rewrite Hinv. unfold cached. now rewrite Hrow, E.
    + assert (bool_decide (domain = d) && bool_decide (root_server = s) = false) as ->.
      { apply andb_false_iff.
        destruct (decide (domain = d)) as [-> | Hd]; [right | left];
          apply bool_decide_eq_false_2; [intros -> |]; tauto. }
      rewrite app_nil_r, Hinv. now destruct st.
Qed.

Lemma find_maintains fuel target_name qtype st r st' :
  find fuel target_name qtype st = Done (r, st') -> maintains st st'.
Proof.
  intros H.
  pose proof (proj1 (find_respects maintains maintains_refl maintains_trans
    maintains_rows make_request_maintains ensure_domain_maintains
    root_response_maintains fuel) target_name qtype st I) as Hr.
  now rewrite H in Hr.
Qed.

Lemma find_recursive_maintains fuel target_name qtype ip_addr st r st' :
  find_recursive fuel target_name qtype ip_addr st = Done (r, st') ->
  maintains st st'.
Proof.
  intros H.
  pose proof (proj2 (find_respects maintains maintains_refl maintains_trans
    maintains_rows make_request_maintains ensure_domain_maintains
    root_response_maintains fuel) target_name qtype ip_addr st I) as Hr.
  now rewrite H in Hr.
Qed.

(** ** [get_results]: what the collecting loops compute *)

Lemma collect_rrset_eq record_type rdatatype owner answers :
  forall (full_response : gmap string (list Entry)) l st,
    full_response !! record_type = Some l ->
    collect_rrset record_type rdatatype owner answers full_response st =
    Done (<[record_type :=
              (l ++ map (fun answer => mkEntry (to_text owner) (rd_text answer))
                     (filter (fun answer => rdtype answer = rdatatype) answers))%list]>
            full_response, st).
Proof.
  induction answers as [| a rest IH]; intros fr l st Hl; cbn [collect_rrset].
  - cbn. rewrite app_nil_r, insert_id by assumption. reflexivity.
  - rewrite filter_cons.
    destruct (Z.eqb_spec (rdtype a) rdatatype) as [Heq | Hne].
    + rewrite decide_True by assumption.
      unfold bind, append_entry. rewrite Hl. cbn [ret].
      rewrite (IH _ (l ++ [mkEntry (to_text owner) (rd_text a)])%list)
        by apply lookup_insert_eq.
      rewrite insert_insert_eq, <- app_assoc. reflexivity.
    + rewrite decide_False by assumption. now apply IH.
Qed.

Lemma collect_answer_eq record_type rdatatype answer :
  forall (full_response : gmap string (list Entry)) l st,
    full_response !! record_type = Some l ->
    collect_answer record_type rdatatype answer full_response st =
    Done (<[record_type := (l ++ flat_map (entries_of rdatatype) answer)%list]>
            full_response, st).
Proof.
  induction answer as [| a rest IH]; intros fr l st Hl; cbn [collect_answer].
  - cbn. rewrite app_nil_r, insert_id by assumption. reflexivity.
  - unfold bind. rewrite (collect_rrset_eq _ _ _ _ _ l) by assumption.
    rewrite (IH _ (l ++ entries_of rdatatype a)%list) by apply lookup_insert_eq.
    rewrite insert_insert_eq, <- app_assoc. reflexivity.
Qed.

(** One round of the loop over the two record types. *)
Lemma collect_located_eq record_type rdatatype located
    (full_response : gmap string (list Entry)) st :
  full_response !! record_type = Some [] ->
  match located with
  | Some resp =>
      if truthy (answer resp) then
        collect_answer record_type rdatatype (answer resp) full_response
      else ret full_response
  | None => ret full_response
  end st =
  Done (<[record_type := records_of_type rdatatype located]> full_response, st).
Proof.
  intros Hl. destruct located as [resp |]; cbn [records_of_type].
  - destruct (answer resp) as [| a rest] eqn:E; cbn [truthy].
    + cbn. rewrite insert_id by assumption. reflexivity.
    + rewrite (collect_answer_eq _ _ _ _ []) by assumption. reflexivity.
  - cbn. rewrite insert_id by assumption. reflexivity.
Qed.

Lemma get_results_unfold fuel name st :
  get_results fuel name st =
  match find fuel (from_text name) rdatatype.A st with
  | Done (rA, st1) =>
      match find fuel (from_text name) rdatatype.AAAA st1 with
      | Done (rAAAA, st2) =>
          Done (<["A" := records_of_type rdatatype.A rA]>
                  (<["AAAA" := records_of_type rdatatype.AAAA rAAAA]> ∅), st2)
      | Raise e st' => Raise e st'
      | OutOfFuel st' => OutOfFuel st'
      end
  | Raise e st' => Raise e st'
  | OutOfFuel st' => OutOfFuel st'
  end.
Proof.
  unfold get_results. cbn [get_results_loop]. unfold bind at 1.
  destruct (find fuel (from_text name) rdatatype.A st) as [[rA st1] | e xe | ye];
    [| reflexivity ..].
  unfold bind at 1. rewrite collect_located_eq by reflexivity.
  unfold bind at 1.
  destruct (find fuel (from_text name) rdatatype.AAAA st1) as [[rAAAA st2] | e xe | ye];
    [| reflexivity ..].
  unfold bind at 1. rewrite collect_located_eq by reflexivity.
  unfold ret. apply (f_equal Done), (f_equal (fun m => (m, st2))).
  apply map_eq. intros k. rewrite !lookup_insert.
  repeat case_decide; congruence.
Qed.

(** ** The loops as first-match searches *)

Lemma first_match_app chase ips1 ips2 st :
  first_match chase (ips1 ++ ips2) st =
  or_else (first_match chase ips1 st) (first_match chase ips2).
Proof.
  revert st. induction ips1 as [| ip rest IH]; intros st; [reflexivity |].
  cbn [app first_match]. unfold bind.
  destruct (chase ip st) as [[[m |] st1] | e xe | ye]; try reflexivity.
  - destruct (truthy (answer m)); [reflexivity | apply IH].
  - apply IH.
Qed.

Lemma chase_addresses_first_match chase adds st :
  chase_addresses chase adds st = first_match chase (map rd_text adds) st.
Proof.
  revert st. induction adds as [| add rest IH]; intros st; [reflexivity |].
  cbn [map chase_addresses first_match]. unfold bind.
  destruct (chase (rd_text add) st) as [[[m |] st1] | e xe | ye]; try reflexivity.
  - destruct (truthy (answer m)); [reflexivity | apply IH].
  - apply IH.
Qed.

Lemma chase_additional_first_match chase additionals st :
  chase_additional chase additionals st =
  first_match chase (glue_addresses additionals) st.
Proof.
  revert st. induction additionals as [| a rest IH]; intros st; [reflexivity |].
  cbn [chase_additional glue_addresses flat_map].
  destruct (rr_rdtype a =? rdatatype.A); cbn [negb].
  - rewrite first_match_app. unfold bind.
    rewrite chase_addresses_first_match.
    destruct (first_match chase (map rd_text (rdatas a)) st)
      as [[[m |] st1] | e xe | ye]; cbn [or_else]; try reflexivity.
    apply IH.
  - apply IH.
Qed.

Lemma root_loop_app chase target_name qtype domain servers1 servers2 st :
  root_loop chase target_name qtype domain (servers1 ++ servers2) st =
  or_else (root_loop chase target_name qtype domain servers1 st)
    (root_loop chase target_name qtype domain servers2).
Proof.
  revert st. induction servers1 as [| s rest IH]; intros st; [reflexivity |].
  cbn [app root_loop]. unfold bind.
  destruct (try_root chase target_name qtype domain s st)
    as [[[m |] st1] | e xe | ye]; try reflexivity.
  apply IH.
Qed.

Lemma first_match_answer chase ips st m st' :
  first_match chase ips st = Done (Some m, st') -> truthy (answer m) = true.
Proof.
  revert st. induction ips as [| ip rest IH]; intros st; [discriminate |].
  cbn [first_match]. unfold bind.
  destruct (chase ip st) as [[[m1 |] st1] | e xe | ye]; try discriminate.
  - destruct (truthy (answer m1)) eqn:E; [| apply IH].
    intros H. inversion H. now subst.
  - apply IH.
Qed.

Lemma truthy_true {X} (xs : list X) : truthy xs = true <-> xs <> [].
Proof. destruct xs; cbn; split; congruence. Qed.

Lemma truthy_false {X} (xs : list X) : truthy xs = false <-> xs = [].
Proof. destruct xs; cbn; split; congruence. Qed.

Lemma try_root_answer chase target_name qtype domain root_server st m st' :
  try_root chase target_name qtype domain root_server st = Done (Some m, st') ->
  truthy (answer m) = true.
Proof.
  unfold try_root, bind.
  destruct (root_response target_name qtype domain root_server st)
    as [[[resp |] st1] | e xe | ye]; try discriminate.
  destruct (truthy (answer resp)) eqn:E.
  - intros H. inversion H. now subst.
  - destruct (truthy (additional resp)); [| discriminate].
    rewrite chase_additional_first_match. apply first_match_answer.
Qed.

Lemma root_loop_answer chase target_name qtype domain servers st m st' :
  root_loop chase target_name qtype domain servers st = Done (Some m, st') ->
  truthy (answer m) = true.
Proof.
  revert st. induction servers as [| s rest IH]; intros st; [discriminate |].
  cbn [root_loop]. unfold bind.
  destruct (try_root chase target_name qtype domain s st)
    as [[[m1 |] st1] | e xe | ye] eqn:E; try discriminate.
  - intros H. inversion H. subst. eapply try_root_answer; eauto.
  - apply IH.
Qed.

Lemma first_match_ext chase chase' ips :
  (forall ip st, chase ip st = chase' ip st) ->
  forall st, first_match chase ips st = first_match chase' ips st.
Proof.
  intros Hc. induction ips as [| ip rest IH]; intros st; [reflexivity |].
  cbn [first_match]. unfold bind. rewrite Hc.
  destruct (chase' ip st) as [[[m |] st1] | e xe | ye]; try reflexivity.
  - destruct (truthy (answer m)); [reflexivity | apply IH].
  - apply IH.
Qed.

Lemma chase_additional_ext chase chase' additionals :
  (forall ip st, chase ip st = chase' ip st) ->
  forall st,
    chase_additional chase additionals st = chase_additional chase' additionals st.
Proof.
  intros Hc st. rewrite !chase_additional_first_match. now apply first_match_ext.
Qed.

(** ** The properties of the design document *)

(** C8. [get_domain_key] returns the full textual name when the name has
    fewer than two labels.  Otherwise it takes the label that stands just
    before the terminal root label, the top-level-domain label: it returns
    that label when its bytes are UTF-8, and raises [UnicodeDecodeError]
    when they are not. *)
Theorem get_domain_key_spec (n : Name) :
  ((length (labels n) < 2)%nat -> get_domain_key n = Returns (to_text n)) /\
  (forall subdomains tld,
     labels n = (subdomains ++ [tld; ""])%list ->
     (utf8_valid tld = true -> get_domain_key n = Returns tld) /\
     (utf8_valid tld = false -> get_domain_key n = Raises UnicodeDecodeError)).
Proof.
  unfold get_domain_key. split.
  - intros H. apply Nat.ltb_lt in H. now rewrite H.
  - intros subdomains tld ->.
    rewrite length_app. cbn [length].
    replace (length subdomains + 2 <? 2)%nat with false
      by (symmetry; apply Nat.ltb_ge; lia).
    replace (length subdomains + 2 - 2)%nat with (length subdomains) by lia.
    rewrite app_nth2 by lia. rewrite Nat.sub_diag. cbn [nth]. unfold decode.
    split; intros ->; reflexivity.
Qed.

Lemma make_request_on_failure site target_name qtype ip_addr st e w :
  udp (world st) target_name qtype ip_addr = (UdpRaise e, w) ->
  make_request site target_name qtype ip_addr st =
  Done (None,
        mkState (domain_cache st) w
          (trace st ++ [mkSent site target_name qtype ip_addr None])).
Proof. intros H. rewrite make_request_eq, H. reflexivity. Qed.

(** C7. A reply with an empty answer section and an empty additional
    section is what [find_recursive] returns, as it came; a transport
    failure gives [None], which is a different value. *)
Theorem find_recursive_empty_reply fuel target_name qtype ip_addr st resp w :
  udp (world st) target_name qtype ip_addr = (UdpReply resp, w) ->
  answer resp = [] ->
  additional resp = [] ->
  find_recursive (S fuel) target_name qtype ip_addr st =
    Done (Some resp,
          mkState (domain_cache st) w
            (trace st ++ [mkSent Chaser target_name qtype ip_addr (Some resp)])) /\
  (forall st2 e w2,
     udp (world st2) target_name qtype ip_addr = (UdpRaise e, w2) ->
     find_recursive (S fuel) target_name qtype ip_addr st2 =
       Done (None,
             mkState (domain_cache st2) w2
               (trace st2 ++ [mkSent Chaser target_name qtype ip_addr None]))) /\
  Some resp <> None.
Proof.
  intros Hudp Hans Hadd. repeat split; [| | discriminate].
  - cbn [find_recursive]. unfold bind. rewrite make_request_eq, Hudp.
    cbn [fst snd reply_of]. now rewrite Hans, Hadd.
  - intros st2 e w2 H2. cbn [find_recursive]. unfold bind.
    rewrite make_request_eq, H2. reflexivity.
Qed.

(** C9. A message that [find] returns has a non-empty answer section. *)
Theorem find_result_has_answer fuel target_name qtype st m st' :
  find fuel target_name qtype st = Done (Some m, st') ->
  answer m <> [].
Proof.
  destruct fuel as [| fuel]; [discriminate |].
  destruct (get_domain_key target_name) as [domain | e] eqn:Hkey;
    [| now rewrite (find_without_key _ _ _ e)].
  rewrite (find_with_key _ _ _ domain) by assumption. unfold bind.
  destruct (ensure_domain domain st) as [[[] st0] | e xe | ye]; try discriminate.
  intros H. apply truthy_true. eapply root_loop_answer; eauto.
Qed.

(** C4. When the reply to [find_recursive] has an answer section with a
    set of type CNAME and the type asked for is not CNAME, the call is
    [find] on the target of the first such set, with the same type, run
    from the state the one query left: same result, same final state, and
    it returns exactly when that [find] returns. *)
Theorem find_recursive_follows_alias target_name qtype ip_addr st resp w :
  udp (world st) target_name qtype ip_addr = (UdpReply resp, w) ->
  Exists (fun answers => rr_rdtype answers = rdatatype.CNAME) (answer resp) ->
  qtype <> rdatatype.CNAME ->
  exists before alias after,
    answer resp = (before ++ alias :: after)%list /\
    Forall (fun answers => rr_rdtype answers <> rdatatype.CNAME) before /\
    rr_rdtype alias = rdatatype.CNAME /\
    let cname_target := from_text (rd_text (rr_first alias)) in
    let st1 := mkState (domain_cache st) w
                 (trace st ++ [mkSent Chaser target_name qtype ip_addr (Some resp)]) in
    (forall fuel,
       find_recursive (S fuel) target_name qtype ip_addr st =
       find fuel cname_target qtype st1) /\
    (forall r st',
       find_recursive_returns target_name qtype ip_addr st r st' <->
       find_returns cname_target qtype st1 r st').
Proof.
  intros Hudp Hex Hq.
  assert (exists before alias after,
            answer resp = (before ++ alias :: after)%list /\
            Forall (fun answers => rr_rdtype answers <> rdatatype.CNAME) before /\
            rr_rdtype alias = rdatatype.CNAME /\
            List.find (is_alias qtype) (answer resp) = Some alias)
    as (before & alias & after & Hsplit & Hbefore & Halias & Hfind).
  { clear Hudp. induction Hex as [a rest Ha | a rest Hex IH].
    - exists [], a, rest. repeat split; auto. cbn. unfold is_alias.
      apply Z.eqb_eq in Ha. apply Z.eqb_neq in Hq. now rewrite Ha, Hq.
    - destruct (Z.eq_dec (rr_rdtype a) rdatatype.CNAME) as [Ha | Ha].
      + exists [], a, rest. repeat split; auto. cbn. unfold is_alias.
        apply Z.eqb_eq in Ha. apply Z.eqb_neq in Hq. now rewrite Ha, Hq.
      + destruct IH as (before & alias & after & -> & Hb & Hal & Hf).
        exists (a :: before), alias, after. repeat split; auto.
        cbn. unfold is_alias at 1. apply Z.eqb_neq in Ha. now rewrite Ha. }
  exists before, alias, after. repeat split; auto.
  - intros fuel. cbn [find_recursive]. unfold bind.
    rewrite make_request_eq, Hudp. cbn [fst snd reply_of].
    rewrite Hfind.
    replace (truthy (answer resp)) with true; [reflexivity |].
    rewrite Hsplit. now destruct before.
  - intros [[| fuel] H]; [discriminate |]. exists fuel.
    rewrite <- H. cbn [find_recursive]. unfold bind.
    rewrite make_request_eq, Hudp. cbn [fst snd reply_of].
    rewrite Hfind.
    replace (truthy (answer resp)) with true; [reflexivity |].
    rewrite Hsplit. now destruct before.
  - intros [fuel H]. exists (S fuel).
    rewrite <- H. cbn [find_recursive]. unfold bind.
    rewrite make_request_eq, Hudp. cbn [fst snd reply_of].
    rewrite Hfind.
    replace (truthy (answer resp)) with true; [reflexivity |].
    rewrite Hsplit. now destruct before.
Qed.


Lemma get_results_respects (R : St -> St -> Prop) fuel name :
  (forall st1 st2 st3, R st1 st2 -> R st2 st3 -> R st1 st3) ->
  (forall qtype, respects R (fun _ => True) (find fuel (from_text name) qtype)) ->
  respects R (fun _ => True) (get_results fuel name).
Proof.
  intros Htrans Hf st _. rewrite get_results_unfold.
  pose proof (Hf rdatatype.A st I) as H1.
  destruct (find fuel (from_text name) rdatatype.A st)
    as [[rA st1] | e1 st1 | st1]; auto.
  pose proof (Hf rdatatype.AAAA st1 I) as H2.
  destruct (find fuel (from_text name) rdatatype.AAAA st1)
    as [[rB st2] | e2 st2 | st2]; [eauto | | eauto].
  destruct H2 as [He HR]. split; eauto.
Qed.

Lemma find_maintains_all fuel :
  (forall target_name qtype,
     respects maintains (fun _ => True) (find fuel target_name qtype)) /\
  (forall target_name qtype ip_addr,
     respects maintains (fun _ => True)
       (find_recursive fuel target_name qtype ip_addr)).
Proof.
  apply find_respects.
  - apply maintains_refl.
  - apply maintains_trans.
  - apply maintains_rows.
  - apply make_request_maintains.
  - apply ensure_domain_maintains.
  - apply root_response_maintains.
Qed.

Lemma get_results_maintains fuel name st r st' :
  get_results fuel name st = Done (r, st') -> maintains st st'.
Proof.
  intros H.
  pose proof (get_results_respects maintains fuel name maintains_trans
                (fun qtype => proj1 (find_maintains_all fuel) _ qtype) st I) as Hr.
  now rewrite H in Hr.
Qed.

Lemma later_maintains st st' : later st st' -> maintains st st'.
Proof.
  induction 1 as [st | st fuel n q st1 st2 H _ IH
                 | st fuel n q ip st1 st2 H _ IH
                 | st fuel name st1 st2 H _ IH
                 | st w st2 _ IH].
  - apply maintains_refl.
  - eapply maintains_trans; [| exact IH].
    eapply respects_leaves; [apply (proj1 (find_maintains_all fuel)) | exact I | exact H].
  - eapply maintains_trans; [| exact IH].
    eapply respects_leaves; [apply (proj2 (find_maintains_all fuel)) | exact I | exact H].
  - eapply maintains_trans; [| exact IH].
    eapply respects_leaves; [| exact I | exact H].
    apply get_results_respects; [apply maintains_trans |].
    intros qtype. apply (proj1 (find_maintains_all fuel)).
  - eapply maintains_trans; [| exact IH].
    split; [split; auto |]. intros Hinv d s. apply Hinv.
Qed.

Lemma initial_state_matches (w : World) : cache_matches_trace (initial_state w).
Proof. intros d s. reflexivity. Qed.

(** C2, as the code has it.  Through calls of the resolver that follow
    one another, a cache entry, once there, stays as it is: every later
    root-loop step for that key and root server takes the entry, asks
    nothing and changes nothing; and when the entry records a failure the
    step yields nothing, so the loop goes on to the next root server. *)
Theorem cache_entry_is_permanent st domain root_server v st' :
  cached st domain root_server = Some v ->
  later st st' ->
  cached st' domain root_server = Some v /\
  (forall target_name qtype,
     get_domain_key target_name = Returns domain ->
     root_response target_name qtype domain root_server st' = Done (v, st')) /\
  (v = None ->
   forall chase target_name qtype,
     get_domain_key target_name = Returns domain ->
     try_root chase target_name qtype domain root_server st' = Done (None, st')).
Proof.
  intros Hc Hl.
  assert (cached st' domain root_server = Some v) as Hc'
    by (apply (later_maintains _ _ Hl); exact Hc).
  split; [exact Hc' |]. split.
  - intros n q _. now apply root_response_hit.
  - intros -> chase n q _. unfold try_root, bind.
    now rewrite (root_response_hit _ _ _ _ _ None).
Qed.

(** C10, as the code has it.  From the start of the process on, through
    calls of the resolver that follow one another, the root-server loop
    has sent at most one query per (key, root server), whatever the names
    and record types asked for; the cache holds what that query gave, and
    a root-loop step for any name of that key and any record type gets it
    from the cache as it is. *)
Theorem one_root_query_per_key (w0 : World) st domain root_server :
  later (initial_state w0) st ->
  (length (List.filter (is_root_query domain root_server) (trace st)) <= 1)%nat /\
  (forall v,
     cached st domain root_server = Some v ->
     root_outcomes domain root_server (trace st) = [v] /\
     forall target_name qtype,
       get_domain_key target_name = Returns domain ->
       root_response target_name qtype domain root_server st = Done (v, st)) /\
  (cached st domain root_server = None ->
   root_outcomes domain root_server (trace st) = []).
Proof.
  intros Hl.
  pose proof (proj2 (later_maintains _ _ Hl) (initial_state_matches w0)
                domain root_server) as Hinv.
  split; [| split].
  - rewrite <- (length_map sent_response).
    change (map sent_response _) with (root_outcomes domain root_server (trace st)).
    rewrite Hinv. destruct (cached st domain root_server); cbn; lia.
  - intros v Hc. rewrite Hc in Hinv. split; [exact Hinv |].
    intros n q _. now apply root_response_hit.
  - intros Hc. now rewrite Hc in Hinv.
Qed.

(** C5. [find] takes the root servers in the order of [ROOT_SERVERS]; the
    first one whose reply has answers, or whose referral leads the chaser
    to a message with answers, ends the call with that message and in the
    state that step left, so nothing further is asked.  On a referral the
    type-A additional addresses are chased in the order listed, each chase
    running to its end before the next starts, in [find] and in
    [find_recursive] alike. *)
Theorem find_first_answer_wins fuel target_name qtype :
  let chase := find_recursive fuel target_name qtype in
  (forall domain st before root_server after st0 st1,
     get_domain_key target_name = Returns domain ->
     ROOT_SERVERS = (before ++ root_server :: after)%list ->
     ensure_domain domain st = Done (tt, st0) ->
     root_loop chase target_name qtype domain before st0 = Done (None, st1) ->
     (forall resp st2,
        root_response target_name qtype domain root_server st1 = Done (Some resp, st2) ->
        answer resp <> [] ->
        find (S fuel) target_name qtype st = Done (Some resp, st2)) /\
     (forall resp st2 tried ip untried st3 m st4,
        root_response target_name qtype domain root_server st1 = Done (Some resp, st2) ->
        answer resp = [] ->
        glue_addresses (additional resp) = (tried ++ ip :: untried)%list ->
        first_match chase tried st2 = Done (None, st3) ->
        chase ip st3 = Done (Some m, st4) ->
        answer m <> [] ->
        find (S fuel) target_name qtype st = Done (Some m, st4))) /\
  (forall ip_addr st resp w,
     udp (world st) target_name qtype ip_addr = (UdpReply resp, w) ->
     answer resp = [] ->
     find_recursive (S fuel) target_name qtype ip_addr st =
     (found <- first_match chase (glue_addresses (additional resp)) ;;
      ret (Some (default resp found)))
       (mkState (domain_cache st) w
          (trace st ++ [mkSent Chaser target_name qtype ip_addr (Some resp)]))).
Proof.
  intros chase. split.
  - intros domain st before root_server after st0 st1 Hkey Hroots Hens Hbefore.
    assert (forall r st',
              try_root chase target_name qtype domain root_server st1 = Done (Some r, st') ->
              find (S fuel) target_name qtype st = Done (Some r, st')) as Hstep.
    { intros r st' Htry. rewrite (find_with_key _ _ _ domain) by assumption.
      fold chase.
      unfold bind at 1. rewrite Hens, Hroots, root_loop_app, Hbefore.
      cbn [or_else root_loop]. unfold bind. now rewrite Htry. }
    split.
    + intros resp st2 Hresp Hans. apply Hstep.
      unfold try_root, bind. rewrite Hresp.
      apply truthy_true in Hans. now rewrite Hans.
    + intros resp st2 tried ip untried st3 m st4 Hresp Hans Hglue Htried Hip Hm.
      apply Hstep. unfold try_root, bind. rewrite Hresp.
      assert (truthy (answer resp) = false) as -> by now apply truthy_false.
      assert (truthy (additional resp) = true) as ->.
      { destruct (additional resp); [destruct tried; discriminate | reflexivity]. }
      rewrite chase_additional_first_match, Hglue, first_match_app, Htried.
      cbn [or_else first_match]. unfold bind. rewrite Hip.
      apply truthy_true in Hm. now rewrite Hm.
  - intros ip_addr st resp w Hudp Hans.
    rewrite find_recursive_unfold. fold chase. unfold bind at 1.
    rewrite make_request_eq, Hudp. cbn [fst snd reply_of].
    assert (truthy (answer resp) = false) as -> by now apply truthy_false.
    destruct (additional resp) as [| a rest] eqn:Hadd; [reflexivity |].
    cbn [truthy]. unfold bind. rewrite chase_additional_first_match.
    destruct (first_match chase (glue_addresses (a :: rest)) _)
      as [[[m |] st1] | e xe | ye]; reflexivity.
Qed.



(** ** The front end: [print_results] and [resolve] *)

Lemma string_app_nil_r (s : string) : (s ++ "")%string = s.
Proof.
  induction s as [| c s IH]; [reflexivity |].
  change (String c (s ++ "")%string = String c s). now rewrite IH.
Qed.

Lemma format_entry (lit : string) (result : Entry) st :
  format [Field "name"; Lit lit; Field "address"] (entry_kwargs result) st =
  Done ((name result ++ lit ++ address result)%string, st).
Proof.
  cbn [format]. unfold entry_kwargs.
  rewrite lookup_insert_eq.
  rewrite lookup_insert_ne by discriminate. rewrite lookup_insert_eq.
  unfold bind, ret. now rewrite string_app_nil_r.
Qed.

Lemma print_entries_eq fmt_str (line : Entry -> string) entries :
  (forall result st, format fmt_str (entry_kwargs result) st = Done (line result, st)) ->
  forall stdout st,
    print_entries fmt_str entries stdout st =
    Done ((stdout ++ map line entries)%list, st).
Proof.
  intros Hfmt. induction entries as [| result rest IH]; intros stdout st.
  - cbn. now rewrite app_nil_r.
  - cbn [print_entries map]. unfold bind. rewrite Hfmt, IH.
    now rewrite <- app_assoc.
Qed.

Lemma add_answers_eq builds qname rtype recs :
  forall reply st,
    add_answers builds qname rtype recs reply st =
    if forallb (fun rec => builds qname rtype (address rec)) recs then
      Done ((reply ++ map (fun rec => mkRR qname rtype 1 60 (address rec)) recs)%list,
            st)
    else Raise DnslibError st.
Proof.
  induction recs as [| rec rest IH]; intros reply st;
    cbn [add_answers map forallb].
  - unfold ret. now rewrite app_nil_r.
  - destruct (builds qname rtype (address rec)); cbn [andb]; [| reflexivity].
    rewrite IH. now rewrite <- app_assoc.
Qed.

(** X1. [print_results] never raises.  It appends to what was printed one
    line per entry under "A", [<name> has address <address>], then one
    line per entry under "AAAA", [<name> has IPv6 address <address>], each
    list in its order; a key that is missing prints nothing. *)
Theorem print_results_lines (results : gmap string (list Entry)) stdout st :
  print_results results stdout st =
  Done ((stdout ++ map address_line (default [] (results !! "A"))
                ++ map ipv6_line (default [] (results !! "AAAA")))%list, st).
Proof.
  unfold print_results, FORMATS. cbn [print_formats]. unfold bind.
  rewrite (print_entries_eq _ address_line) by apply format_entry.
  rewrite (print_entries_eq _ ipv6_line) by apply format_entry.
  unfold ret. now rewrite <- app_assoc.
Qed.

Lemma resolve_unfold builds fuel qname stdout st :
  resolve builds fuel qname stdout st =
  match find fuel (from_text qname) rdatatype.A st with
  | Done (rA, st1) =>
      match find fuel (from_text qname) rdatatype.AAAA st1 with
      | Done (rAAAA, st2) =>
          if forallb (fun rec => builds qname QTYPE.A (address rec))
               (records_of_type rdatatype.A rA) then
            if forallb (fun rec => builds qname QTYPE.AAAA (address rec))
                 (records_of_type rdatatype.AAAA rAAAA) then
              Done ((map (fun rec => mkRR qname QTYPE.A 1 60 (address rec))
                       (records_of_type rdatatype.A rA) ++
                     map (fun rec => mkRR qname QTYPE.AAAA 1 60 (address rec))
                       (records_of_type rdatatype.AAAA rAAAA),
                     stdout ++ [("Запрос: " ++ qname)%string]
                            ++ map address_line (records_of_type rdatatype.A rA)
                            ++ map ipv6_line (records_of_type rdatatype.AAAA rAAAA))%list,
                    st2)
            else Raise DnslibError st2
          else Raise DnslibError st2
      | Raise e st' => Raise e st'
      | OutOfFuel st' => OutOfFuel st'
      end
  | Raise e st' => Raise e st'
  | OutOfFuel st' => OutOfFuel st'
  end.
Proof.
  unfold resolve. unfold bind at 1. rewrite get_results_unfold.
  destruct (find fuel (from_text qname) rdatatype.A st) as [[rA st1] | e xe | ye];
    [| reflexivity ..].
  destruct (find fuel (from_text qname) rdatatype.AAAA st1) as [[rB st2] | e xe | ye];
    [| reflexivity ..].
  unfold bind at 1. unfold result_item at 1.
  rewrite lookup_insert_eq. cbn [ret].
  unfold bind at 1. rewrite add_answers_eq.
  destruct (forallb _ (records_of_type rdatatype.A rA)); [| reflexivity].
  unfold bind at 1. unfold result_item at 1.
  rewrite lookup_insert_ne by discriminate. rewrite lookup_insert_eq. cbn [ret].
  unfold bind at 1. rewrite add_answers_eq.
  destruct (forallb _ (records_of_type rdatatype.AAAA rB)); [| reflexivity].
  unfold print_results, FORMATS. cbn [print_formats]. unfold bind.
  rewrite (print_entries_eq _ address_line) by apply format_entry.
  rewrite (print_entries_eq _ ipv6_line) by apply format_entry.
  unfold ret.
  rewrite lookup_insert_eq.
  rewrite lookup_insert_ne by discriminate. rewrite lookup_insert_eq.
  cbn [default app]. now rewrite <- !app_assoc.
Qed.


(** X3. What [resolve] prints: the line of the query, then one line per
    answer of the reply, in the same order; the line of an answer ends with
    that answer's address, after [has address] for an A answer and
    [has IPv6 address] for an AAAA answer. *)
Theorem resolve_log builds fuel qname stdout st reply out st' :
  resolve builds fuel qname stdout st = Done ((reply, out), st') ->
  exists lines,
    out = (stdout ++ ("Запрос: " ++ qname)%string :: lines)%list /\
    Forall2
      (fun rr line =>
         exists owner,
           line = (owner ++ (if (rtype rr =? QTYPE.A)%Z then " has address "
                             else " has IPv6 address ") ++ rdata rr)%string)
      reply lines.
Proof.
  rewrite resolve_unfold.
  destruct (find fuel (from_text qname) rdatatype.A st)
    as [[rA st1] | e1 xe1 | ye1]; try discriminate.
  destruct (find fuel (from_text qname) rdatatype.AAAA st1)
    as [[rB st2] | e2 xe2 | ye2]; try discriminate.
  destruct (forallb _ (records_of_type rdatatype.A rA)); [| discriminate].
  destruct (forallb _ (records_of_type rdatatype.AAAA rB)); [| discriminate].
  intros H. inversion H. subst. clear H. eexists. split; [reflexivity |].
  apply Forall2_app.
  - induction (records_of_type rdatatype.A rA) as [| rec rest IH];
      constructor; [exists (name rec); reflexivity | exact IH].
  - induction (records_of_type rdatatype.AAAA rB) as [| rec rest IH];
      constructor; [exists (name rec); reflexivity | exact IH].
Qed.

(** X15. The one exception that leaves [find] or [find_recursive] is the
    decoding error of [get_domain_key]: the rows of [domain_cache] they
    read are there, so there is no [KeyError].  On a name whose key cannot
    be decoded [find] raises at once: nothing is sent and nothing is
    stored.  And a call that raises later, inside a lookup that an alias
    restarted, keeps every cache entry that was there. *)
Theorem find_raises_only_decode_error fuel target_name qtype st :
  (forall e st',
     find fuel target_name qtype st = Raise e st' ->
     e = UnicodeDecodeError /\ extends st st') /\
  (forall ip_addr e st',
     find_recursive fuel target_name qtype ip_addr st = Raise e st' ->
     e = UnicodeDecodeError /\ extends st st') /\
  (forall e,
     get_domain_key target_name = Raises e ->
     find (S fuel) target_name qtype st = Raise UnicodeDecodeError st).
Proof.
  pose proof (find_respects extends extends_refl extends_trans
    extends_rows (make_request_extends Chaser) ensure_domain_extends
    root_response_extends fuel) as [Hf Hr].
  split; [| split].
  - intros e st' H. specialize (Hf target_name qtype st I).
    now rewrite H in Hf.
  - intros ip_addr e st' H. specialize (Hr target_name qtype ip_addr st I).
    now rewrite H in Hr.
  - intros e H. rewrite (find_without_key _ _ _ e) by assumption.
    now rewrite (get_domain_key_raises _ _ H).
Qed.

(** ** What a lookup sends

    The rule of [Maintained] again, for one record type and with the
    root-loop step taken only as [find] takes it: for a root server, under
    the key of the name. *)
Section MaintainedFor.

Variable qtype : Z.
Variable R : St -> St -> Prop.
Hypothesis R_refl : forall st, R st st.
Hypothesis R_trans : forall st1 st2 st3, R st1 st2 -> R st2 st3 -> R st1 st3.
Hypothesis R_rows : forall domain st st',
  R st st' -> row_present domain st -> row_present domain st'.
Hypothesis R_chaser : forall target_name ip_addr,
  respects R (fun _ => True) (make_request Chaser target_name qtype ip_addr).
Hypothesis R_ensure : forall domain,
  respects R (fun _ => True) (ensure_domain domain).
Hypothesis R_root : forall target_name domain root_server,
  get_domain_key target_name = Returns domain ->
  In root_server ROOT_SERVERS ->
  respects R (row_present domain)
    (root_response target_name qtype domain root_server).

Lemma root_loop_respects_for chase target_name domain servers :
  get_domain_key target_name = Returns domain ->
  (forall ip, respects R (fun _ => True) (chase ip)) ->
  incl servers ROOT_SERVERS ->
  respects R (row_present domain)
    (root_loop chase target_name qtype domain servers).
Proof.
  intros Hkey Hc. induction servers as [| s rest IH]; intros Hincl; cbn [root_loop].
  - now apply respects_ret.
  - assert (forall st st', row_present domain st ->
                           R st st' -> row_present domain st')
      as Hstable by (intros st st' Hp HR; eapply R_rows; eauto).
    apply respects_bind; [exact R_trans | exact Hstable | |].
    + unfold try_root.
      apply respects_bind; [exact R_trans | exact Hstable | |].
      * apply R_root; [exact Hkey |]. apply Hincl. now left.
      * intros [resp |]; [| now apply respects_ret].
        destruct (truthy (answer resp)); [now apply respects_ret |].
        destruct (truthy (additional resp)); [| now apply respects_ret].
        now apply chase_additional_respects.
    + intros [m |]; [now apply respects_ret |].
      apply IH. intros s' Hs'. apply Hincl. now right.
Qed.

Lemma find_respects_for fuel :
  (forall target_name,
     respects R (fun _ => True) (find fuel target_name qtype)) /\
  (forall target_name ip_addr,
     respects R (fun _ => True) (find_recursive fuel target_name qtype ip_addr)).
Proof.
  induction fuel as [| fuel [IHf IHr]];
    [split; intros; intros st _; apply R_refl |].
  split.
  - intros target_name st _.
    destruct (get_domain_key target_name) as [domain | e] eqn:Hkey.
    + rewrite (find_with_key _ _ _ domain) by assumption. unfold bind.
      destruct (ensure_domain_row domain st) as (st0 & E & Hrow).
      pose proof (R_ensure domain st I) as H0.
      rewrite E in *.
      pose proof (root_loop_respects_for (find_recursive fuel target_name qtype)
                    target_name domain ROOT_SERVERS Hkey (IHr target_name)
                    (incl_refl _) st0 Hrow) as H1.
      destruct (root_loop _ _ _ _ _ st0) as [[r st1] | e st1 | st1];
        [eauto | | eauto].
      destruct H1 as [He HR]. split; eauto.
    + rewrite (find_without_key _ _ _ e) by assumption.
      split; [eapply get_domain_key_raises; eauto | apply R_refl].
  - intros target_name ip_addr. rewrite find_recursive_unfold.
    apply respects_bind; [exact R_trans | auto | apply R_chaser |].
    intros [resp |]; [| now apply respects_ret].
    destruct (truthy (answer resp)).
    + destruct (List.find (is_alias qtype) (answer resp));
        [apply IHf | now apply respects_ret].
    + destruct (truthy (additional resp)); [| now apply respects_ret].
      apply respects_bind; [exact R_trans | auto | |].
      * apply chase_additional_respects; auto.
      * intros [m |]; now apply respects_ret.
Qed.

End MaintainedFor.

Lemma sends_refl qtype st : sends qtype st st.
Proof.
  split; [apply extends_refl |]. split; [| auto].
  exists []. split; [now rewrite app_nil_r | constructor].
Qed.

Lemma sends_trans qtype st1 st2 st3 :
  sends qtype st1 st2 -> sends qtype st2 st3 -> sends qtype st1 st3.
Proof.
  intros (E1 & (new1 & T1 & F1) & K1) (E2 & (new2 & T2 & F2) & K2).
  split; [eapply extends_trans; eauto |]. split; [| auto].
  exists (new1 ++ new2)%list. split.
  - now rewrite T2, T1, <- app_assoc.
  - apply Forall_app. now split.
Qed.

Lemma sends_rows qtype domain st st' :
  sends qtype st st' -> row_present domain st -> row_present domain st'.
Proof. intros (E & _). now apply extends_rows. Qed.

Lemma make_request_sends qtype target_name ip_addr :
  respects (sends qtype) (fun _ => True)
    (make_request Chaser target_name qtype ip_addr).
Proof.
  intros st _.
  pose proof (make_request_extends Chaser target_name qtype ip_addr st I) as H.
  rewrite make_request_eq in *. split; [exact H |]. split.
  - eexists. split; [reflexivity |]. repeat constructor.
  - intros Hrows d s v. apply Hrows.
Qed.

Lemma ensure_domain_sends qtype domain :
  respects (sends qtype) (fun _ => True) (ensure_domain domain).
Proof.
  intros st _. pose proof (ensure_domain_extends domain st I) as H.
  pose proof (ensure_domain_cached domain st) as Hc.
  destruct (ensure_domain domain st) as [[[] st'] | e xe | ye];
    [| destruct (Hc "" "") ..].
  split; [exact H |]. split.
  - exists []. destruct (Hc "" "") as [_ ->]. split; [now rewrite app_nil_r | constructor].
  - intros Hrows d s v. destruct (Hc d s) as [-> _]. apply Hrows.
Qed.

Lemma root_response_sends qtype target_name domain root_server :
  get_domain_key target_name = Returns domain ->
  In root_server ROOT_SERVERS ->
  respects (sends qtype) (row_present domain)
    (root_response target_name qtype domain root_server).
Proof.
  intros Hkey Hroot st Hp.
  pose proof (root_response_extends target_name qtype domain root_server st Hp) as H.
  destruct Hp as [row Hrow].
  destruct (row !! root_server) as [v |] eqn:E.
  - rewrite (root_response_hit _ _ _ _ _ v) in *;
      [apply sends_refl | unfold cached; now rewrite Hrow ..].
  - rewrite (root_response_miss _ _ _ _ _ row) in * by assumption.
    cbv zeta in *. split; [exact H |]. split.
    + eexists. split; [reflexivity |].
      constructor; [| constructor]. split; [reflexivity |]. split; [exact Hkey | exact Hroot].
    + intros Hrows d s v. rewrite cached_insert_row by assumption.
      destruct (decide (d = domain /\ s = root_server))
        as [[-> ->] | Hne]; [intros _; exact Hroot |].
      destruct st. apply Hrows.
Qed.

Lemma find_sends_all fuel qtype :
  (forall target_name,
     respects (sends qtype) (fun _ => True) (find fuel target_name qtype)) /\
  (forall target_name ip_addr,
     respects (sends qtype) (fun _ => True)
       (find_recursive fuel target_name qtype ip_addr)).
Proof.
  apply find_respects_for.
  - apply sends_refl.
  - apply sends_trans.
  - apply sends_rows.
  - apply make_request_sends.
  - apply ensure_domain_sends.
  - apply root_response_sends.
Qed.

Lemma find_sends_qtype fuel target_name qtype st r st' :
  find fuel target_name qtype st = Done (r, st') -> sends qtype st st'.
Proof.
  intros H. pose proof (proj1 (find_sends_all fuel qtype) target_name st I) as Hr.
  now rewrite H in Hr.
Qed.

Lemma find_recursive_sends_qtype fuel target_name qtype ip_addr st r st' :
  find_recursive fuel target_name qtype ip_addr st = Done (r, st') ->
  sends qtype st st'.
Proof.
  intros H.
  pose proof (proj2 (find_sends_all fuel qtype) target_name ip_addr st I) as Hr.
  now rewrite H in Hr.
Qed.

(** X4. Whatever [find] sends asks for the record type it was called with,
    also after an alias has sent it back to the root with another name; a
    query of its root loop goes to a root server, under the cache key of
    the name that query asks for; and the trace only grows. *)
Theorem find_sends_what_was_asked fuel target_name qtype st r st' :
  find fuel target_name qtype st = Done (r, st') ->
  exists new,
    trace st' = (trace st ++ new)%list /\
    Forall (fun q => sent_qtype q = qtype /\ well_sited q) new.
Proof. intros H. apply find_sends_qtype in H. apply H. Qed.

(** X5. [get_results] asks only A and AAAA questions, and every A question
    goes out before the first AAAA question. *)
Theorem get_results_asks_A_then_AAAA fuel name st r st' :
  get_results fuel name st = Done (r, st') ->
  exists asked_A asked_AAAA,
    trace st' = (trace st ++ asked_A ++ asked_AAAA)%list /\
    Forall (fun q => sent_qtype q = rdatatype.A) asked_A /\
    Forall (fun q => sent_qtype q = rdatatype.AAAA) asked_AAAA.
Proof.
  rewrite get_results_unfold.
  destruct (find fuel (from_text name) rdatatype.A st)
    as [[rA st1] | e1 xe1 | ye1] eqn:E1; try discriminate.
  destruct (find fuel (from_text name) rdatatype.AAAA st1)
    as [[rB st2] | e2 xe2 | ye2] eqn:E2; try discriminate.
  intros H. inversion H. subst.
  destruct (find_sends_qtype _ _ _ _ _ _ E1) as (_ & (new1 & T1 & F1) & _).
  destruct (find_sends_qtype _ _ _ _ _ _ E2) as (_ & (new2 & T2 & F2) & _).
  exists new1, new2. split; [now rewrite T2, T1, <- app_assoc |].
  split; eapply Forall_impl; eauto; now intros q [Hq _].
Qed.

Lemma sends_sited qtype st st' :
  sends qtype st st' ->
  (Forall well_sited (trace st) -> Forall well_sited (trace st')) /\
  (root_rows st -> root_rows st').
Proof.
  intros (_ & (new & -> & Hnew) & Hrows). split; [| exact Hrows].
  intros Hold. apply Forall_app. split; [exact Hold |].
  eapply Forall_impl; eauto. now intros q [_ Hq].
Qed.

Lemma respects_impl (R R' : St -> St -> Prop) (P : St -> Prop) {X}
    (m : M St X) :
  (forall st st', R st st' -> R' st st') ->
  respects R P m -> respects R' P m.
Proof.
  intros Himpl Hm st Hst. specialize (Hm st Hst).
  destruct (m st) as [[x st1] | e st1 | st1]; [auto | | auto].
  destruct Hm. split; auto.
Qed.

Lemma later_sited st st' :
  later st st' ->
  (Forall well_sited (trace st) -> Forall well_sited (trace st')) /\
  (root_rows st -> root_rows st').
Proof.
  set (R := fun st st' : St =>
              (Forall well_sited (trace st) -> Forall well_sited (trace st')) /\
              (root_rows st -> root_rows st')).
  assert (forall st1 st2 st3, R st1 st2 -> R st2 st3 -> R st1 st3) as Htrans
    by (unfold R; intuition).
  assert (forall fuel target_name qtype,
            respects R (fun _ => True) (find fuel target_name qtype)) as Hf.
  { intros fuel n q. eapply respects_impl; [apply sends_sited |].
    apply (proj1 (find_sends_all fuel q)). }
  assert (forall fuel target_name qtype ip_addr,
            respects R (fun _ => True)
              (find_recursive fuel target_name qtype ip_addr)) as Hr.
  { intros fuel n q ip. eapply respects_impl; [apply sends_sited |].
    apply (proj2 (find_sends_all fuel q)). }
  induction 1 as [st | st fuel n q st1 st2 H _ IH
                 | st fuel n q ip st1 st2 H _ IH
                 | st fuel name st1 st2 H _ IH
                 | st w st2 _ IH].
  - split; auto.
  - apply (Htrans _ st1); [| exact IH].
    eapply respects_leaves; [apply Hf | exact I | exact H].
  - apply (Htrans _ st1); [| exact IH].
    eapply respects_leaves; [apply Hr | exact I | exact H].
  - apply (Htrans _ st1); [| exact IH].
    eapply respects_leaves; [| exact I | exact H].
    apply get_results_respects; [exact Htrans | intros q; apply Hf].
  - split; intros Hst; apply IH; [exact Hst |].
    intros d s v. apply Hst.
Qed.

(** X6. Nothing is in the cache that a root server did not give: in every
    state the process can reach, an entry under (key, server) is for one of
    the thirteen root servers, and it is the outcome of a query that the
    root loop really sent to that server, for a name with that key. *)
Theorem cache_entry_was_replied (w0 : World) st domain root_server v :
  later (initial_state w0) st ->
  cached st domain root_server = Some v ->
  In root_server ROOT_SERVERS /\
  exists q,
    In q (trace st) /\
    sent_site q = RootLoop domain /\
    sent_ip q = root_server /\
    get_domain_key (sent_name q) = Returns domain /\
    sent_response q = v.
Proof.
  intros Hl Hc.
  pose proof (proj2 (later_maintains _ _ Hl) (initial_state_matches w0)
                domain root_server) as Hinv.
  destruct (later_sited _ _ Hl) as [Hsited Hrows].
  specialize (Hsited (Forall_nil_2 _)).
  assert (root_rows (initial_state w0)) as H0 by (intros d s x; discriminate).
  specialize (Hrows H0). split; [eapply Hrows; eauto |].
  rewrite Hc in Hinv. unfold root_outcomes in Hinv.
  destruct (List.filter (is_root_query domain root_server) (trace st))
    as [| q rest] eqn:Hf; [discriminate |].
  assert (In q (List.filter (is_root_query domain root_server) (trace st))) as Hin
    by (rewrite Hf; now left).
  apply filter_In in Hin. destruct Hin as [Hin Hq].
  exists q. split; [exact Hin |].
  rewrite Forall_forall in Hsited. specialize (Hsited q).
  unfold is_root_query in Hq. unfold well_sited in Hsited.
  destruct (sent_site q) as [d |] eqn:Hsite; [| discriminate].
  apply andb_true_iff in Hq. destruct Hq as [Hd Hs].
  apply bool_decide_eq_true in Hd. apply bool_decide_eq_true in Hs. subst d.
  destruct Hsited as [Hkey _]; [now apply list_elem_of_In |].
  repeat split; auto. cbn in Hinv. now inversion Hinv.
Qed.

Lemma ROOT_SERVERS_NoDup : NoDup ROOT_SERVERS.
Proof. apply (bool_decide_unpack _). vm_compute. exact I. Qed.

(** X7. A row of the cache never holds more than thirteen entries: one per
    root server at most, however many names are looked up under its key. *)
Theorem cache_row_is_bounded (w0 : World) st domain
    (row : gmap string (option Message)) :
  later (initial_state w0) st ->
  domain_cache st !! domain = Some row ->
  (size row <= 13)%nat.
Proof.
  intros Hl Hrow.
  destruct (later_sited _ _ Hl) as [_ Hrows].
  assert (root_rows (initial_state w0)) as H0 by (intros d s x; discriminate).
  specialize (Hrows H0).
  assert (dom row ⊆ (list_to_set ROOT_SERVERS : gset string)) as Hsub.
  { intros s Hs. apply elem_of_dom in Hs. destruct Hs as [v Hv].
    apply elem_of_list_to_set, list_elem_of_In.
    apply (Hrows domain s v). unfold cached. now rewrite Hrow. }
  rewrite <- size_dom.
  apply subseteq_size in Hsub.
  rewrite size_list_to_set in Hsub by apply ROOT_SERVERS_NoDup.
  exact Hsub.
Qed.

(** ** Lookups answered from the cache *)

Lemma try_root_dead chase target_name qtype domain root_server st v :
  cached st domain root_server = Some v ->
  dead_entry v ->
  try_root chase target_name qtype domain root_server st = Done (None, st).
Proof.
  intros Hc Hdead. unfold try_root, bind.
  rewrite (root_response_hit _ _ _ _ _ v) by assumption.
  destruct v as [resp |]; [| reflexivity].
  destruct Hdead as [Hans Hglue]. rewrite Hans. cbn [truthy].
  destruct (truthy (additional resp)); [| reflexivity].
  now rewrite chase_additional_first_match, Hglue.
Qed.

Lemma root_loop_dead_prefix chase target_name qtype domain dead rest st :
  (forall s, In s dead ->
     exists v, cached st domain s = Some v /\ dead_entry v) ->
  root_loop chase target_name qtype domain (dead ++ rest) st =
  root_loop chase target_name qtype domain rest st.
Proof.
  induction dead as [| s dead IH]; intros Hdead; [reflexivity |].
  cbn [app root_loop]. unfold bind.
  destruct (Hdead s (or_introl eq_refl)) as (v & Hc & Hv).
  rewrite (try_root_dead _ _ _ _ _ _ v) by assumption.
  apply IH. intros s' Hs'. apply Hdead. now right.
Qed.

Lemma ensure_domain_present domain root_server st v :
  cached st domain root_server = Some v ->
  ensure_domain domain st = Done (tt, st).
Proof.
  unfold cached, ensure_domain.
  now destruct (domain_cache st !! domain).
Qed.

(** X8. Once the cache holds, for the key of a name, entries that give
    nothing for the root servers up to some root server and a reply with
    answers for that one, [find] returns that reply for every name with
    this key and every record type, and sends nothing: neither the name nor
    the type asked for is compared with what the reply answers. *)
Theorem find_serves_cached_answer fuel target_name qtype domain st
    before root_server after m :
  get_domain_key target_name = Returns domain ->
  ROOT_SERVERS = (before ++ root_server :: after)%list ->
  (forall s, In s before ->
     exists v, cached st domain s = Some v /\ dead_entry v) ->
  cached st domain root_server = Some (Some m) ->
  answer m <> [] ->
  find (S fuel) target_name qtype st = Done (Some m, st).
Proof.
  intros Hkey Hroots Hdead Hc Hans.
  rewrite (find_with_key _ _ _ domain) by assumption. unfold bind.
  rewrite (ensure_domain_present _ _ _ _ Hc), Hroots.
  rewrite root_loop_dead_prefix by assumption.
  cbn [root_loop]. unfold bind, try_root. unfold bind.
  rewrite (root_response_hit _ _ _ _ _ _ Hc).
  apply truthy_true in Hans. now rewrite Hans.
Qed.

(** X9. Once every root server has, for a key, an entry that gives nothing
    (a recorded failure, or a reply with neither answers nor type-A
    additional addresses), every lookup of a name with that key comes back
    empty without a single query: [find] returns [None], [get_results]
    returns [{"A": [], "AAAA": []}] and [resolve] an empty reply, and the
    state is left as it was. *)
Theorem dead_key_stays_dead builds fuel name domain stdout st :
  get_domain_key (from_text name) = Returns domain ->
  (forall s, In s ROOT_SERVERS ->
     exists v, cached st domain s = Some v /\ dead_entry v) ->
  (forall qtype, find (S fuel) (from_text name) qtype st = Done (None, st)) /\
  get_results (S fuel) name st =
    Done (<["A" := []]> (<["AAAA" := []]> ∅), st) /\
  resolve builds (S fuel) name stdout st =
    Done (([], stdout ++ [("Запрос: " ++ name)%string])%list, st).
Proof.
  intros Hkey Hdead.
  assert (forall qtype, find (S fuel) (from_text name) qtype st = Done (None, st))
    as Hfind.
  { intros qtype. rewrite (find_with_key _ _ _ domain) by assumption. unfold bind.
    destruct (Hdead "198.41.0.4" (or_introl eq_refl)) as (v & Hc & _).
    rewrite (ensure_domain_present _ _ _ _ Hc).
    rewrite <- (app_nil_r ROOT_SERVERS).
    now rewrite root_loop_dead_prefix. }
  split; [exact Hfind |]. split.
  - rewrite get_results_unfold, !Hfind. reflexivity.
  - rewrite resolve_unfold, !Hfind. reflexivity.
Qed.

(** ** What a lookup that finds nothing leaves behind *)

Lemma root_response_caches target_name qtype domain root_server st r st' :
  row_present domain st ->
  root_response target_name qtype domain root_server st = Done (r, st') ->
  cached st' domain root_server = Some r.
Proof.
  intros [row Hrow].
  destruct (row !! root_server) as [v |] eqn:E.
  - rewrite (root_response_hit _ _ _ _ _ v) by (unfold cached; now rewrite Hrow).
    intros H. inversion H. subst. unfold cached. now rewrite Hrow.
  - rewrite (root_response_miss _ _ _ _ _ row) by assumption. cbv zeta.
    intros H. inversion H. subst. rewrite cached_insert_row by assumption.
    now rewrite decide_True.
Qed.

Lemma try_root_caches chase target_name qtype domain root_server st r st' :
  (forall ip, respects extends (fun _ => True) (chase ip)) ->
  row_present domain st ->
  try_root chase target_name qtype domain root_server st = Done (r, st') ->
  extends st st' /\ is_Some (cached st' domain root_server).
Proof.
  intros Hc Hrow Htry.
  pose proof (try_root_respects extends extends_refl extends_trans extends_rows
                root_response_extends chase target_name qtype domain root_server
                Hc st Hrow) as Hext.
  rewrite Htry in Hext. split; [exact Hext |].
  unfold try_root, bind in Htry.
  destruct (root_response target_name qtype domain root_server st)
    as [[v st1] | e xe | ye] eqn:E; try discriminate.
  pose proof (root_response_caches _ _ _ _ _ _ _ Hrow E) as Hc1.
  assert (extends st1 st') as [_ Hkeep].
  { destruct v as [resp |]; [| inversion Htry; subst; apply extends_refl].
    destruct (truthy (answer resp)); [inversion Htry; subst; apply extends_refl |].
    destruct (truthy (additional resp)); [| inversion Htry; subst; apply extends_refl].
    pose proof (chase_additional_respects extends extends_refl extends_trans
                  chase Hc (fun _ => True) (fun _ _ _ _ => I)
                  (additional resp) st1 I) as H.
    now rewrite Htry in H. }
  rewrite (Hkeep _ _ _ Hc1). eauto.
Qed.

Lemma root_loop_caches chase target_name qtype domain servers :
  (forall ip, respects extends (fun _ => True) (chase ip)) ->
  forall st st',
    row_present domain st ->
    root_loop chase target_name qtype domain servers st = Done (None, st') ->
    forall s, In s servers -> is_Some (cached st' domain s).
Proof.
  intros Hc. induction servers as [| s0 rest IH]; intros st st' Hrow Hloop s Hin;
    [destruct Hin |].
  cbn [root_loop] in Hloop. unfold bind in Hloop.
  destruct (try_root chase target_name qtype domain s0 st)
    as [[[m |] st1] | e xe | ye] eqn:E; try discriminate.
  destruct (try_root_caches _ _ _ _ _ _ _ _ Hc Hrow E) as [Hext [v Hv]].
  assert (row_present domain st1) as Hrow1 by (eapply extends_rows; eauto).
  destruct Hin as [<- | Hin]; [| eapply IH; eauto].
  pose proof (root_loop_respects extends extends_refl extends_trans extends_rows
                root_response_extends chase target_name qtype domain rest
                Hc st1 Hrow1) as Hrest.
  rewrite Hloop in Hrest. destruct Hrest as [_ Hkeep].
  rewrite (Hkeep _ _ _ Hv). eauto.
Qed.

(** X10. When [find] returns [None], the name has a key and every one of
    the thirteen root servers has an entry in the cache under it: a lookup
    that found nothing has been through the whole list, and the root loop
    will ask no root server about that key again. *)
Theorem find_nothing_fills_the_row fuel target_name qtype st st' :
  find fuel target_name qtype st = Done (None, st') ->
  exists domain,
    get_domain_key target_name = Returns domain /\
    forall root_server,
      In root_server ROOT_SERVERS ->
      is_Some (cached st' domain root_server).
Proof.
  destruct fuel as [| fuel]; [discriminate |].
  destruct (get_domain_key target_name) as [domain | e] eqn:Hkey;
    [| now rewrite (find_without_key _ _ _ e)].
  rewrite (find_with_key _ _ _ domain) by assumption. unfold bind.
  destruct (ensure_domain_row domain st) as (st0 & -> & Hrow).
  intros Hloop. exists domain. split; [reflexivity |].
  eapply root_loop_caches; eauto.
  apply (proj2 (find_respects extends extends_refl extends_trans
    extends_rows (make_request_extends Chaser) ensure_domain_extends
    root_response_extends fuel)).
Qed.

(** ** A lookup while every root server fails *)

Lemma root_loop_all_fail chase target_name qtype domain servers :
  NoDup servers ->
  (forall w s, In s servers ->
     reply_of (udp w target_name qtype s).1 = None) ->
  forall st,
    row_present domain st ->
    (forall s, In s servers -> cached st domain s = None) ->
    exists st',
      root_loop chase target_name qtype domain servers st = Done (None, st') /\
      trace st' =
        (trace st ++
         map (fun s => mkSent (RootLoop domain) target_name qtype s None) servers)%list /\
      (forall s, In s servers -> cached st' domain s = Some None) /\
      (forall d s v, cached st d s = Some v -> cached st' d s = Some v).
Proof.
  intros Hnd Hfail. induction servers as [| s rest IH]; intros st Hrow Hnone.
  - exists st. cbn. rewrite app_nil_r. intuition.
  - apply NoDup_cons in Hnd. destruct Hnd as [Hs Hnd].
    destruct Hrow as [row Hrow].
    assert (row !! s = None) as Hmiss.
    { specialize (Hnone s (or_introl eq_refl)). unfold cached in Hnone.
      now rewrite Hrow in Hnone. }
    pose proof (root_response_miss target_name qtype domain s st row Hrow Hmiss) as Hresp.
    cbv zeta in Hresp.
    rewrite (Hfail (world st) s (or_introl eq_refl)) in Hresp.
    destruct (IH Hnd (fun w s' Hs' => Hfail w s' (or_intror Hs'))
                (mkState (<[domain := <[s := None]> row]> (domain_cache st))
                   (udp (world st) target_name qtype s).2
                   (trace st ++ [mkSent (RootLoop domain) target_name qtype s None])))
      as (st' & Hloop & Htrace & Hcached & Hkeep).
    + exists (<[s := None]> row). cbn. apply lookup_insert_eq.
    + intros s' Hs'. rewrite cached_insert_row by assumption.
      rewrite decide_False.
      * destruct st. apply Hnone. now right.
      * intros [_ ->]. apply Hs. now apply list_elem_of_In.
    + exists st'. split; [| split; [| split]].
      * cbn [root_loop]. unfold bind, try_root. unfold bind.
        rewrite Hresp. exact Hloop.
      * rewrite Htrace. cbn [trace map]. now rewrite <- app_assoc.
      * intros s' [<- | Hs']; [| now apply Hcached].
        apply Hkeep. rewrite cached_insert_row by assumption.
        now rewrite decide_True.
      * intros d s' v Hv. apply Hkeep. rewrite cached_insert_row by assumption.
        destruct (decide (d = domain /\ s' = s)) as [[-> ->] | Hne].
        -- rewrite (Hnone s (or_introl eq_refl)) in Hv. discriminate.
        -- destruct st. exact Hv.
Qed.

(** X11. While every root server fails to reply, a lookup under a key with
    no entry yet sends exactly thirteen queries, one to each root server
    in the order of [ROOT_SERVERS], none of them repeated; it returns
    [None] and leaves the thirteen failures in the cache. *)
Theorem find_asks_each_root_once fuel target_name qtype domain st :
  get_domain_key target_name = Returns domain ->
  (forall s, In s ROOT_SERVERS -> cached st domain s = None) ->
  (forall w s, In s ROOT_SERVERS ->
     exists e w', udp w target_name qtype s = (UdpRaise e, w')) ->
  exists st',
    find (S fuel) target_name qtype st = Done (None, st') /\
    trace st' =
      (trace st ++
       map (fun s => mkSent (RootLoop domain) target_name qtype s None)
         ROOT_SERVERS)%list /\
    (forall s, In s ROOT_SERVERS -> cached st' domain s = Some None).
Proof.
  intros Hkey Hnone Hfail.
  rewrite (find_with_key _ _ _ domain) by assumption. unfold bind.
  destruct (ensure_domain_row domain st) as (st0 & E & Hrow).
  pose proof (ensure_domain_cached domain st) as Hc.
  rewrite E in *.
  destruct (root_loop_all_fail
              (find_recursive fuel target_name qtype) target_name qtype
              domain ROOT_SERVERS ROOT_SERVERS_NoDup)
    with (st := st0) as (st' & Hloop & Htrace & Hcached & _).
  - intros w s Hs. destruct (Hfail w s Hs) as (e & w' & ->). reflexivity.
  - exact Hrow.
  - intros s Hs. destruct (Hc domain s) as [-> _]. now apply Hnone.
  - exists st'. split; [exact Hloop |]. split; [| exact Hcached].
    destruct (Hc "" "") as [_ <-]. exact Htrace.
Qed.

(** ** What [find_recursive] returns, and what it leaves alone *)

Lemma find_answer_truthy fuel target_name qtype st m st' :
  find fuel target_name qtype st = Done (Some m, st') ->
  truthy (answer m) = true.
Proof.
  destruct fuel as [| fuel]; [discriminate |].
  destruct (get_domain_key target_name) as [domain | e] eqn:Hkey;
    [| now rewrite (find_without_key _ _ _ e)].
  rewrite (find_with_key _ _ _ domain) by assumption. unfold bind.
  destruct (ensure_domain domain st) as [[[] st0] | e xe | ye]; try discriminate.
  apply root_loop_answer.
Qed.

(** X12. [find_recursive] returns [None] only when the server did not reply
    or when an alias in its reply sent the lookup back to the root and
    that found nothing; a message it returns has answers or is the very
    reply of the server it asked. *)
Theorem find_recursive_result fuel target_name qtype ip_addr st r st' :
  find_recursive fuel target_name qtype ip_addr st = Done (r, st') ->
  match reply_of (udp (world st) target_name qtype ip_addr).1, r with
  | None, _ => r = None
  | Some resp, None => List.find (is_alias qtype) (answer resp) <> None
  | Some resp, Some m => answer m <> [] \/ m = resp
  end.
Proof.
  destruct fuel as [| fuel]; [discriminate |].
  rewrite find_recursive_unfold. unfold bind. rewrite make_request_eq.
  destruct (reply_of (udp (world st) target_name qtype ip_addr).1) as [resp |];
    [| intros H; now inversion H].
  destruct (truthy (answer resp)) eqn:Hans.
  - destruct (List.find (is_alias qtype) (answer resp)) as [alias |].
    + destruct r as [m |]; [| discriminate].
      intros H. left. apply truthy_true. eapply find_answer_truthy; eauto.
    + intros H. inversion H. now right.
  - destruct (truthy (additional resp)); [| intros H; inversion H; now right].
    unfold bind. rewrite chase_additional_first_match.
    destruct (first_match _ _ _) as [[[m |] st1] | e xe | ye] eqn:E; try discriminate.
    + intros H. inversion H. subst. left. apply truthy_true.
      eapply first_match_answer; eauto.
    + intros H. inversion H. now right.
Qed.

(** X13. Chasing referrals is not cached: as long as no reply carries an
    alias that sends the lookup back to the root, [find_recursive] leaves
    [domain_cache] exactly as it was, however many servers it asks. *)
Theorem find_recursive_leaves_cache fuel target_name qtype :
  (forall w ip resp w',
     udp w target_name qtype ip = (UdpReply resp, w') ->
     List.find (is_alias qtype) (answer resp) = None) ->
  forall ip_addr st r st',
    find_recursive fuel target_name qtype ip_addr st = Done (r, st') ->
    domain_cache st' = domain_cache st.
Proof.
  intros Hnet.
  set (R := fun st st' : St => domain_cache st' = domain_cache st).
  assert (forall ip_addr, respects R (fun _ => True)
            (find_recursive fuel target_name qtype ip_addr)) as Hall.
  { induction fuel as [| fuel IH]; intros ip_addr;
      [intros st _; reflexivity |].
    rewrite find_recursive_unfold. intros st _. unfold bind.
    rewrite make_request_eq.
    destruct (udp (world st) target_name qtype ip_addr) as [[resp | e] w] eqn:E;
      cbn [fst snd reply_of]; [| reflexivity].
    rewrite (Hnet _ _ _ _ E).
    destruct (truthy (answer resp)); [reflexivity |].
    destruct (truthy (additional resp)); [| reflexivity].
    unfold bind.
    pose proof (chase_additional_respects R (fun _ => eq_refl)
                  (fun st1 st2 st3 (H1 : R st1 st2) (H2 : R st2 st3) =>
                     eq_trans H2 H1)
                  (find_recursive fuel target_name qtype) IH
                  (fun _ => True) (fun _ _ _ _ => I) (additional resp)
                  (mkState (domain_cache st) w
                     (trace st ++ [mkSent Chaser target_name qtype ip_addr (Some resp)]))
                  I) as H.
    destruct (chase_additional _ _ _) as [[[m |] st1] | e xe | ye]; auto. }
  intros ip_addr st r st' H. specialize (Hall ip_addr st I). now rewrite H in Hall.
Qed.

Lemma nodup_of_counts {X} (f : X -> string) (l : list X) :
  (forall s, (length (List.filter (fun x => bool_decide (f x = s)) l) <= 1)%nat) ->
  List.NoDup (map f l).
Proof.
  induction l as [| x l IH]; intros Hcount; [constructor |].
  cbn [map]. constructor.
  - intros Hin. apply in_map_iff in Hin. destruct Hin as (y & Hy & Hin).
    specialize (Hcount (f x)). cbn [List.filter] in Hcount.
    rewrite bool_decide_eq_true_2 in Hcount by reflexivity. cbn [length] in Hcount.
    assert (In y (List.filter (fun x0 => bool_decide (f x0 = f x)) l)) as Hy'
      by (apply filter_In; split; [exact Hin | now apply bool_decide_eq_true_2]).
    destruct (List.filter (fun x0 => bool_decide (f x0 = f x)) l);
      [destruct Hy' | cbn in Hcount; lia].
  - apply IH. intros s. specialize (Hcount s). cbn [List.filter] in Hcount.
    destruct (bool_decide (f x = s)); cbn [length] in Hcount; lia.
Qed.

(** X14. Through calls of the resolver that follow one another, from the
    start of the process on, the root loop sends at most thirteen queries
    under one key, however many names with that key are looked up and
    whatever their record types. *)
Theorem at_most_thirteen_root_queries_per_key (w0 : World) st domain :
  later (initial_state w0) st ->
  (length (List.filter (sent_under domain) (trace st)) <= 13)%nat.
Proof.
  intros Hl.
  pose proof (proj2 (later_maintains _ _ Hl) (initial_state_matches w0)) as Hinv.
  destruct (later_sited _ _ Hl) as [Hsited _].
  specialize (Hsited (Forall_nil_2 _)).
  set (L := List.filter (sent_under domain) (trace st)).
  rewrite <- (length_map sent_ip).
  change 13%nat with (length ROOT_SERVERS).
  apply NoDup_incl_length.
  - apply nodup_of_counts. intros s.
    specialize (Hinv domain s). unfold root_outcomes in Hinv.
    assert (List.filter (fun x => bool_decide (sent_ip x = s)) L =
            List.filter (is_root_query domain s) (trace st)) as ->.
    { unfold L. clear. induction (trace st) as [| q l IH]; [reflexivity |].
      cbn [List.filter]. unfold is_root_query at 1, sent_under at 1.
      destruct (sent_site q) as [d |] eqn:Hsite; [| exact IH].
      destruct (bool_decide (d = domain)); [| exact IH].
      cbn [List.filter andb].
      destruct (bool_decide (sent_ip q = s)); now rewrite IH. }
    rewrite <- (length_map sent_response), Hinv.
    destruct (cached st domain s); cbn; lia.
  - intros s Hs. apply in_map_iff in Hs. destruct Hs as (q & <- & Hq).
    apply filter_In in Hq. destruct Hq as [Hq Hsite].
    rewrite Forall_forall in Hsited.
    specialize (Hsited q (proj2 (list_elem_of_In _ _) Hq)).
    unfold well_sited in Hsited. unfold sent_under in Hsite.
    destruct (sent_site q); [apply Hsited | discriminate].
Qed.

End Resolver.




(** ** Two networks that [make_request] cannot tell apart *)
Section TwoNetworks.

Variable from_text : string -> Name.
Variable escapify : string -> string.
Variable World : Type.
Variables udp1 udp2 : World -> Name -> Z -> string -> UdpResult * World.

Hypothesis same_requests : forall site target_name qtype ip_addr st,
  make_request World udp1 site target_name qtype ip_addr st =
  make_request World udp2 site target_name qtype ip_addr st.

Lemma root_response_same target_name qtype domain root_server st :
  root_response World udp1 target_name qtype domain root_server st =
  root_response World udp2 target_name qtype domain root_server st.
Proof.
  unfold root_response, bind.
  destruct (cache_row World domain st) as [[row st1] | e xe | ye]; try reflexivity.
  destruct (row !! root_server); [reflexivity |].
  now rewrite same_requests.
Qed.

Lemma root_loop_same chase chase' target_name qtype domain servers :
  (forall ip st, chase ip st = chase' ip st) ->
  forall st,
    root_loop World udp1 chase target_name qtype domain servers st =
    root_loop World udp2 chase' target_name qtype domain servers st.
Proof.
  intros Hc. induction servers as [| s rest IH]; intros st; [reflexivity |].
  cbn [root_loop]. unfold bind, try_root. unfold bind.
  rewrite root_response_same.
  destruct (root_response World udp2 target_name qtype domain s st)
    as [[[resp |] st1] | e xe | ye]; [| apply IH | reflexivity ..].
  destruct (truthy (answer resp)); [reflexivity |].
  destruct (truthy (additional resp)); [| apply IH].
  rewrite (chase_additional_ext World chase chase') by exact Hc.
  destruct (chase_additional World chase' (additional resp) st1)
    as [[[m |] st2] | e xe | ye]; [reflexivity | apply IH | reflexivity ..].
Qed.

Lemma find_same fuel :
  (forall target_name qtype st,
     find from_text escapify World udp1 fuel target_name qtype st =
     find from_text escapify World udp2 fuel target_name qtype st) /\
  (forall target_name qtype ip_addr st,
     find_recursive from_text escapify World udp1 fuel target_name qtype ip_addr st =
     find_recursive from_text escapify World udp2 fuel target_name qtype ip_addr st).
Proof.
  induction fuel as [| fuel [IHf IHr]];
    [split; intros; cbn [find find_recursive]; reflexivity |].
  split.
  - intros target_name qtype st.
    rewrite (find_unfold from_text escapify World udp1).
    rewrite (find_unfold from_text escapify World udp2).
    unfold bind at 1 3.
    destruct (lift (get_domain_key escapify target_name) st)
      as [[domain st'] | e xe | ye]; [| reflexivity ..].
    unfold bind.
    destruct (ensure_domain World domain st')
      as [[[] st0] | e xe | ye]; [| reflexivity ..].
    apply root_loop_same. intros ip st1. apply IHr.
  - intros target_name qtype ip_addr st.
    rewrite (find_recursive_unfold from_text escapify World udp1).
    rewrite (find_recursive_unfold from_text escapify World udp2).
    unfold bind. rewrite same_requests.
    destruct (make_request World udp2 Chaser target_name qtype ip_addr st)
      as [[[resp |] st1] | e xe | ye]; [| reflexivity ..].
    destruct (truthy (answer resp)).
    + destruct (List.find (is_alias qtype) (answer resp)); [apply IHf | reflexivity].
    + destruct (truthy (additional resp)); [| reflexivity].
      rewrite (chase_additional_ext World _
                 (find_recursive from_text escapify World udp2 fuel target_name qtype))
        by (intros ip st2; apply IHr).
      reflexivity.
Qed.

End TwoNetworks.

(** C6. Whatever [dns.query.udp] raises, [make_request] returns [None]: the
    call is [Done], never [Raise].  [find] and [find_recursive] see nothing
    of the kind of error: on a network that raises other errors in the same
    places they compute the same outcome, final state and trace
    included. *)
Theorem transport_failure_is_absent (from_text : string -> Name)
    (escapify : string -> string) (World : Type)
    (udp : World -> Name -> Z -> string -> UdpResult * World) :
  (forall site target_name qtype ip_addr st e w,
     udp (world st) target_name qtype ip_addr = (UdpRaise e, w) ->
     make_request World udp site target_name qtype ip_addr st =
     Done (None,
           mkState (domain_cache st) w
             (trace st ++ [mkSent site target_name qtype ip_addr None]))) /\
  (forall f fuel target_name qtype st,
     find from_text escapify World (recode_errors f udp) fuel target_name qtype st =
     find from_text escapify World udp fuel target_name qtype st) /\
  (forall f fuel target_name qtype ip_addr st,
     find_recursive from_text escapify World (recode_errors f udp) fuel
       target_name qtype ip_addr st =
     find_recursive from_text escapify World udp fuel target_name qtype ip_addr st).
Proof.
  split; [apply make_request_on_failure |].
  assert (forall f site target_name qtype ip_addr st,
            make_request World (recode_errors f udp) site target_name qtype ip_addr st =
            make_request World udp site target_name qtype ip_addr st) as Hsame.
  { intros f site n q ip st. rewrite !make_request_eq. unfold recode_errors.
    destruct (udp (world st) n q ip) as [[m | e] w]; reflexivity. }
  split; intros f fuel; intros;
    apply (find_same from_text escapify World _ _ (Hsame f) fuel).
Qed.

(** * The properties at work on the example networks *)
Module Examples.
Import Net.

(** The key of [alias.example.com.] is its top-level-domain label; the key
    of the root name is its text; and the name [example.\128.], whose
    top-level-domain label is the byte [80], has no key:
    [get_domain_key] raises. *)
Lemma get_domain_key_examples :
  get_domain_key escapify alias_name = Returns "com" /\
  get_domain_key escapify (mkName [""]) = Returns "." /\
  from_text "example.\128" = undecodable_name /\
  get_domain_key escapify undecodable_name = Raises UnicodeDecodeError.
Proof.
  split; [| split; [| split]].
  - apply (proj1 (proj2 (get_domain_key_spec escapify alias_name)
                    ["alias"; "example"] "com" eq_refl)).
    reflexivity.
  - rewrite (proj1 (get_domain_key_spec escapify (mkName [""]))); [reflexivity |].
    cbn. lia.
  - reflexivity.
  - apply (proj2 (proj2 (get_domain_key_spec escapify undecodable_name)
                    ["example"] (String "128"%char "") eq_refl)).
    reflexivity.
Defined.

(** A root server of [alias_net] that times out: [make_request] gives
    [None]. *)
Lemma timeout_is_absent :
  make_request unit alias_net Chaser alias_name rdatatype.A "199.9.14.201"
    (initial_state tt) =
  Done (None,
        mkState ∅ tt [mkSent Chaser alias_name rdatatype.A "199.9.14.201" None]).
Proof.
  apply (proj1 (transport_failure_is_absent from_text escapify unit alias_net)
           Chaser alias_name rdatatype.A "199.9.14.201" (initial_state tt)
           TimedOut tt).
  reflexivity.
Defined.

(** The authoritative server of [alias_net] knows nothing of
    [b.other.com]: its empty reply is what [find_recursive] returns. *)
Lemma empty_reply_is_returned :
  find_recursive from_text escapify unit alias_net 1 b_other_com rdatatype.A
    auth_server (initial_state tt) =
  Done (Some empty_message,
        mkState ∅ tt
          [mkSent Chaser b_other_com rdatatype.A auth_server (Some empty_message)]).
Proof.
  apply (find_recursive_empty_reply from_text escapify unit alias_net 0 b_other_com
           rdatatype.A auth_server (initial_state tt) empty_message tt);
    reflexivity.
Defined.

(** [find] on [target.example.net] returns the reply of the authoritative
    server, which has an answer.  For [b.other.com] the same server has an
    empty reply: [find_recursive] returns it, [find] returns [None]. *)
Lemma located_message_has_answer :
  (exists m st',
     find from_text escapify unit alias_net 3 target_name rdatatype.A
       (initial_state tt) = Done (Some m, st') /\
     answer m <> []) /\
  (exists st',
     find_recursive from_text escapify unit alias_net 1 b_other_com rdatatype.A
       auth_server (initial_state tt) = Done (Some empty_message, st')) /\
  (exists st',
     find from_text escapify unit alias_net 3 b_other_com rdatatype.A
       (initial_state tt) = Done (None, st')).
Proof.
  split; [| split].
  - exists target_reply. eexists. split.
    + vm_compute. reflexivity.
    + eapply (find_result_has_answer from_text escapify unit alias_net 3 target_name
               rdatatype.A (initial_state tt)).
      vm_compute. reflexivity.
  - eexists. vm_compute. reflexivity.
  - eexists. vm_compute. reflexivity.
Defined.

(** Asked for [alias.example.com], the authoritative server replies with a
    CNAME; [find_recursive] returns what [find] on [target.example.net]
    returns. *)
Lemma alias_is_followed :
  exists st',
    find_recursive_returns from_text escapify unit alias_net alias_name
      rdatatype.A auth_server (initial_state tt) (Some target_reply) st'.
Proof.
  destruct (find_recursive_follows_alias from_text escapify unit alias_net
              alias_name rdatatype.A auth_server (initial_state tt) alias_reply tt)
    as (before & alias & after & Hsplit & _ & _ & _ & Hiff).
  - reflexivity.
  - constructor. reflexivity.
  - discriminate.
  - destruct before as [| b [| b' before]]; inversion Hsplit. subst.
    eexists. apply Hiff. exists 3%nat. vm_compute. reflexivity.
Defined.



(** The first root server refers to the TLD server, whose chain ends in an
    answer: [find] returns it and the other twelve root servers are not
    consulted. *)
Lemma first_root_server_wins :
  exists st',
    find from_text escapify unit alias_net 3 target_name rdatatype.A
      (initial_state tt) = Done (Some target_reply, st').
Proof.
  eassert (ensure_domain unit "net" (initial_state tt) = Done (tt, _)) as Hens
    by (vm_compute; reflexivity).
  match type of Hens with
  | _ = Done (_, ?st0) =>
      eassert (root_response unit alias_net target_name rdatatype.A "net"
                 "198.41.0.4" st0
               = Done (Some (referral (mkName ["com"; ""]) tld_server []), _))
        as Hresp by (vm_compute; reflexivity)
  end.
  match type of Hresp with
  | _ = Done (_, ?st2) =>
      eassert (find_recursive from_text escapify unit alias_net 2 target_name
                 rdatatype.A tld_server st2 = Done (Some target_reply, _)) as Hip
        by (vm_compute; reflexivity)
  end.
  eexists.
  exact (proj2 (proj1 (find_first_answer_wins from_text escapify unit alias_net 2
                         target_name rdatatype.A)
                  "net" (initial_state tt) [] "198.41.0.4" (tl ROOT_SERVERS) _ _
                  eq_refl eq_refl Hens eq_refl)
           _ _ [] tld_server [] _ target_reply _
           Hresp eq_refl eq_refl eq_refl Hip ltac:(discriminate)).
Defined.

(** On [flaky_net] the first root server times out once and would answer
    from then on; the failure recorded for [com] is still what a later
    lookup of another [com] name gets, without a query. *)
Lemma flaky_root_stays_failed :
  exists st st',
    cached nat st "com" "198.41.0.4" = Some None /\
    later from_text escapify nat flaky_net st st' /\
    cached nat st' "com" "198.41.0.4" = Some None /\
    root_response nat flaky_net b_other_com rdatatype.AAAA
      "com" "198.41.0.4" st' = Done (None, st') /\
    try_root nat flaky_net
      (find_recursive from_text escapify nat flaky_net 0 b_other_com rdatatype.AAAA)
      b_other_com rdatatype.AAAA "com" "198.41.0.4" st' = Done (None, st').
Proof.
  eassert (find from_text escapify nat flaky_net 1 a_example_com rdatatype.A
             (initial_state 0%nat) = Done (_, _)) as H1
    by (vm_compute; reflexivity).
  match type of H1 with
  | _ = Done (_, ?st1) =>
      eassert (find from_text escapify nat flaky_net 1 b_other_com rdatatype.AAAA
                 st1 = Done (_, _)) as H2
        by (vm_compute; reflexivity)
  end.
  match type of H2 with
  | find _ _ _ _ _ _ _ ?st1 = Done (_, ?st2) =>
      assert (cached nat st1 "com" "198.41.0.4" = Some None) as Hc
        by (vm_compute; reflexivity);
      assert (later from_text escapify nat flaky_net st1 st2) as Hl
        by exact (later_find _ _ _ _ _ _ _ _ _ _
                    (done_leaves _ _ _ _ H2) (later_now _ _ _ _ _));
      destruct (cache_entry_is_permanent from_text escapify nat flaky_net
                  st1 "com" "198.41.0.4" None st2 Hc Hl)
        as (Hc2 & Hresp & Htry);
      exists st1, st2
  end.
  split; [exact Hc |]. split; [exact Hl |]. split; [exact Hc2 |].
  split; [apply Hresp; reflexivity | apply Htry; reflexivity].
Defined.

(** C2 does not hold of the code as stated.  On [glue_net] the first root
    server fails, and the failure is recorded; the second root server
    refers to the address of the first, which [find_recursive] then asks
    again, and this time it answers: [find] returns what the root server
    with the recorded failure said.  And when two requests are in the root
    loop at once, on [flaky_net], both ask the first root server and both
    store: the failure the first request recorded is overwritten by the
    reply the second one got. *)
Lemma failed_root_is_asked_again :
  (exists st',
     find from_text escapify nat glue_net 2 a_example_com rdatatype.A
       (initial_state 0%nat)
     = Done (Some (host_reply a_example_com "192.0.2.1"), st') /\
     cached nat st' "com" "198.41.0.4" = Some None /\
     map (fun q => (sent_ip q, sent_response q)) (trace st') =
       [("198.41.0.4", None);
        ("199.9.14.201", Some (referral (mkName ["com"; ""]) "198.41.0.4" []));
        ("198.41.0.4", Some (host_reply a_example_com "192.0.2.1"))]) /\
  (exists st0 st1,
     ensure_domain nat "com" (initial_state 0%nat) = Done (tt, st0) /\
     cached nat st0 "com" "198.41.0.4" = None /\
     raced_root_response nat flaky_net a_example_com rdatatype.A
       b_other_com rdatatype.A "com" "198.41.0.4" st0
     = Done ((None, Some (host_reply b_other_com "192.0.2.1")), st1) /\
     cached nat st1 "com" "198.41.0.4"
     = Some (Some (host_reply b_other_com "192.0.2.1"))).
Proof.
  split.
  - eexists. split; [vm_compute; reflexivity |]. split; reflexivity.
  - do 2 eexists. split; [vm_compute; reflexivity |].
    split; [reflexivity |]. split; [vm_compute; reflexivity | reflexivity].
Qed.

(** Two [get_results] calls for two names under [com], four lookups in
    all: two queries were sent, one per root server consulted. *)
Lemma one_query_for_com :
  exists st,
    later from_text escapify nat flaky_net (initial_state 0%nat) st /\
    length (trace st) = 2%nat /\
    (length (List.filter (is_root_query "com" "199.9.14.201") (trace st)) <= 1)%nat /\
    root_outcomes "com" "199.9.14.201" (trace st)
    = [Some (host_reply a_example_com "192.0.2.2")].
Proof.
  eassert (get_results from_text escapify nat flaky_net 1 "a.example.com"
             (initial_state 0%nat) = Done (_, _)) as H1
    by (vm_compute; reflexivity).
  match type of H1 with
  | _ = Done (_, ?st1) =>
      eassert (get_results from_text escapify nat flaky_net 1 "b.other.com"
                 st1 = Done (_, _)) as H2
        by (vm_compute; reflexivity)
  end.
  match type of H2 with
  | _ = Done (_, ?st2) =>
      assert (later from_text escapify nat flaky_net (initial_state 0%nat) st2) as Hl
        by exact (later_get_results _ _ _ _ _ _ _ _ _
                    (done_leaves _ _ _ _ H1)
                    (later_get_results _ _ _ _ _ _ _ _ _
                       (done_leaves _ _ _ _ H2) (later_now _ _ _ _ _)));
      destruct (one_root_query_per_key from_text escapify nat flaky_net 0%nat
                  st2 "com" "199.9.14.201" Hl) as (Hlen & Hcached & _);
      exists st2
  end.
  split; [exact Hl |]. split; [vm_compute; reflexivity |].
  split; [exact Hlen |].
  apply (Hcached (Some (host_reply a_example_com "192.0.2.2"))).
  vm_compute. reflexivity.
Defined.

(** C10 does not hold of the code as stated.  One [get_results] for
    [a.example.com] on [glue_net] sends three queries to the root server
    198.41.0.4, all for that name, whose key is [com]: one from the root
    loop and, the referral of the second root server leading there, one
    from [find_recursive] in each of the two lookups.  And when two
    requests are in the root loop at once, on [flaky_net], the root loop
    itself asks that root server twice under [com]. *)
Lemma root_server_is_asked_again :
  (exists r st',
     get_results from_text escapify nat glue_net 2 "a.example.com"
       (initial_state 0%nat) = Done (r, st') /\
     Forall (fun q => get_domain_key escapify (sent_name q) = Returns "com")
       (trace st') /\
     length (List.filter (fun q => bool_decide (sent_ip q = "198.41.0.4"))
               (trace st')) = 3%nat) /\
  (exists st0 r st1,
     ensure_domain nat "com" (initial_state 0%nat) = Done (tt, st0) /\
     cached nat st0 "com" "198.41.0.4" = None /\
     raced_root_response nat flaky_net a_example_com rdatatype.A
       b_other_com rdatatype.AAAA "com" "198.41.0.4" st0 = Done (r, st1) /\
     length (List.filter (is_root_query "com" "198.41.0.4") (trace st1)) = 2%nat).
Proof.
  split.
  - do 2 eexists. split; [vm_compute; reflexivity |].
    split; [| reflexivity].
    repeat constructor.
  - do 3 eexists. split; [vm_compute; reflexivity |].
    split; [reflexivity |]. split; [vm_compute; reflexivity | reflexivity].
Qed.



End Examples.

(** * The further properties at work on the example networks *)
Module MoreExamples.
Import Net.


(** The log of the same query: the query line and one line for the one
    answer. *)
Lemma alias_query_log :
  exists reply out st',
    resolve from_text escapify unit alias_net builds_all 6 "alias.example.com." []
      (initial_state tt) = Done ((reply, out), st') /\
    exists lines,
      out = ([] ++ ("Запрос: " ++ "alias.example.com.")%string :: lines)%list /\
      Forall2
        (fun rr line =>
           exists owner,
             line = (owner ++ (if (rtype rr =? QTYPE.A)%Z then " has address "
                               else " has IPv6 address ") ++ rdata rr)%string)
        reply lines.
Proof.
  eassert (resolve from_text escapify unit alias_net builds_all 6
             "alias.example.com." [] (initial_state tt) = Done ((_, _), _)) as H
    by (vm_compute; reflexivity).
  do 3 eexists. split; [exact H |].
  exact (resolve_log from_text escapify unit alias_net _ _ _ _ _ _ _ _ H).
Defined.

(** Looking up [target.example.net] for A sends only A questions. *)
Lemma target_lookup_asks_A :
  exists r st',
    find from_text escapify unit alias_net 3 target_name rdatatype.A
      (initial_state tt) = Done (r, st') /\
    exists new,
      trace st' = (trace (initial_state tt) ++ new)%list /\
      Forall (fun q => sent_qtype q = rdatatype.A /\ well_sited escapify q) new.
Proof.
  eassert (find from_text escapify unit alias_net 3 target_name rdatatype.A
             (initial_state tt) = Done (_, _)) as H
    by (vm_compute; reflexivity).
  do 2 eexists. split; [exact H |].
  exact (find_sends_what_was_asked from_text escapify unit alias_net _ _ _ _ _ _ H).
Defined.

(** [get_results] for the alias: A questions, then AAAA questions. *)
Lemma alias_results_ask_A_then_AAAA :
  exists r st',
    get_results from_text escapify unit alias_net 6 "alias.example.com"
      (initial_state tt) = Done (r, st') /\
    exists asked_A asked_AAAA,
      trace st' = (trace (initial_state tt) ++ asked_A ++ asked_AAAA)%list /\
      Forall (fun q => sent_qtype q = rdatatype.A) asked_A /\
      Forall (fun q => sent_qtype q = rdatatype.AAAA) asked_AAAA.
Proof.
  eassert (get_results from_text escapify unit alias_net 6 "alias.example.com"
             (initial_state tt) = Done (_, _)) as H
    by (vm_compute; reflexivity).
  do 2 eexists. split; [exact H |].
  exact (get_results_asks_A_then_AAAA from_text escapify unit alias_net _ _ _ _ _ H).
Defined.

(** After two [get_results] calls on [flaky_net], the entry of the second
    root server under [com] is what that server replied to the one query it
    got. *)
Lemma flaky_entry_was_replied :
  exists st,
    later from_text escapify nat flaky_net (initial_state 0%nat) st /\
    cached nat st "com" "199.9.14.201"
      = Some (Some (host_reply a_example_com "192.0.2.2")) /\
    In "199.9.14.201" ROOT_SERVERS /\
    exists q,
      In q (trace st) /\
      sent_site q = RootLoop "com" /\
      sent_ip q = "199.9.14.201" /\
      get_domain_key escapify (sent_name q) = Returns "com" /\
      sent_response q = Some (host_reply a_example_com "192.0.2.2").
Proof.
  eassert (get_results from_text escapify nat flaky_net 1 "a.example.com"
             (initial_state 0%nat) = Done (_, _)) as H1
    by (vm_compute; reflexivity).
  match type of H1 with
  | _ = Done (_, ?st1) =>
      eassert (get_results from_text escapify nat flaky_net 1 "b.other.com"
                 st1 = Done (_, _)) as H2
        by (vm_compute; reflexivity)
  end.
  match type of H2 with
  | _ = Done (_, ?st2) =>
      assert (later from_text escapify nat flaky_net (initial_state 0%nat) st2) as Hl
        by exact (later_get_results _ _ _ _ _ _ _ _ _
                    (done_leaves _ _ _ _ H1)
                    (later_get_results _ _ _ _ _ _ _ _ _
                       (done_leaves _ _ _ _ H2) (later_now _ _ _ _ _)));
      assert (cached nat st2 "com" "199.9.14.201"
              = Some (Some (host_reply a_example_com "192.0.2.2"))) as Hc
        by (vm_compute; reflexivity);
      exists st2
  end.
  split; [exact Hl |]. split; [exact Hc |].
  exact (cache_entry_was_replied from_text escapify nat flaky_net 0%nat _
           "com" "199.9.14.201" _ Hl Hc).
Defined.

(** The row of [com] in that state has at most thirteen entries. *)
Lemma flaky_row_is_bounded :
  exists st row,
    later from_text escapify nat flaky_net (initial_state 0%nat) st /\
    domain_cache st !! "com" = Some row /\
    (size row <= 13)%nat.
Proof.
  eassert (get_results from_text escapify nat flaky_net 1 "a.example.com"
             (initial_state 0%nat) = Done (_, _)) as H1
    by (vm_compute; reflexivity).
  match type of H1 with
  | _ = Done (_, ?st1) =>
      assert (later from_text escapify nat flaky_net (initial_state 0%nat) st1) as Hl
        by exact (later_get_results _ _ _ _ _ _ _ _ _
                    (done_leaves _ _ _ _ H1) (later_now _ _ _ _ _));
      eassert (domain_cache st1 !! "com" = Some _) as Hrow
        by (vm_compute; reflexivity);
      exists st1
  end.
  eexists. split; [exact Hl |]. split; [exact Hrow |].
  exact (cache_row_is_bounded from_text escapify nat flaky_net 0%nat _ "com" _ Hl Hrow).
Defined.

(** On [flaky_net], after [a.example.com] was looked up for A, a lookup of
    [b.other.com] for AAAA returns the reply that was given for
    [a.example.com], and sends nothing. *)
Lemma other_name_gets_cached_answer :
  exists st,
    find from_text escapify nat flaky_net 1 a_example_com rdatatype.A
      (initial_state 0%nat)
    = Done (Some (host_reply a_example_com "192.0.2.2"), st) /\
    find from_text escapify nat flaky_net 1 b_other_com rdatatype.AAAA st
    = Done (Some (host_reply a_example_com "192.0.2.2"), st).
Proof.
  eassert (find from_text escapify nat flaky_net 1 a_example_com rdatatype.A
             (initial_state 0%nat) = Done (_, _)) as H1
    by (vm_compute; reflexivity).
  eexists. split; [exact H1 |].
  apply (find_serves_cached_answer from_text escapify nat flaky_net 0 b_other_com
           rdatatype.AAAA "com" _ ["198.41.0.4"] "199.9.14.201"
           (tl (tl ROOT_SERVERS)) (host_reply a_example_com "192.0.2.2")).
  - reflexivity.
  - reflexivity.
  - intros s [<- | []]. exists None. split; [vm_compute; reflexivity | exact I].
  - vm_compute. reflexivity.
  - discriminate.
Defined.

(** On [dark_net] a first lookup of [a.example.com] asks the thirteen root
    servers in turn and records thirteen failures. *)
Lemma dark_lookup_asks_each_root_once :
  exists st',
    find from_text escapify nat dark_net 1 a_example_com rdatatype.A
      (initial_state 0%nat) = Done (None, st') /\
    trace st' =
      (trace (initial_state 0%nat) ++
       map (fun s => mkSent (RootLoop "com") a_example_com rdatatype.A s None)
         ROOT_SERVERS)%list /\
    (forall s, In s ROOT_SERVERS -> cached nat st' "com" s = Some None).
Proof.
  apply (find_asks_each_root_once from_text escapify nat dark_net 0 a_example_com
           rdatatype.A "com" (initial_state 0%nat)).
  - reflexivity.
  - intros s _. reflexivity.
  - intros w s _. eexists. eexists. reflexivity.
Defined.

(** After that lookup every root server has an entry under [com]. *)
Lemma dark_lookup_fills_the_row :
  exists st',
    find from_text escapify nat dark_net 1 a_example_com rdatatype.A
      (initial_state 0%nat) = Done (None, st') /\
    exists domain,
      get_domain_key escapify a_example_com = Returns domain /\
      forall root_server,
        In root_server ROOT_SERVERS ->
        is_Some (cached nat st' domain root_server).
Proof.
  eassert (find from_text escapify nat dark_net 1 a_example_com rdatatype.A
             (initial_state 0%nat) = Done (None, _)) as H
    by (vm_compute; reflexivity).
  eexists. split; [exact H |].
  exact (find_nothing_fills_the_row from_text escapify nat dark_net _ _ _ _ _ H).
Defined.

(** And from then on every query for a name under [com] is answered empty
    without the network, here one for [b.other.com]. *)
Lemma dark_key_stays_dead :
  exists st,
    find from_text escapify nat dark_net 1 a_example_com rdatatype.A
      (initial_state 0%nat) = Done (None, st) /\
    get_results from_text escapify nat dark_net 1 "b.other.com" st =
      Done (<["A" := []]> (<["AAAA" := []]> ∅), st) /\
    resolve from_text escapify nat dark_net builds_all 1 "b.other.com" [] st =
      Done (([], [] ++ [("Запрос: " ++ "b.other.com")%string])%list, st).
Proof.
  eassert (find from_text escapify nat dark_net 1 a_example_com rdatatype.A
             (initial_state 0%nat) = Done (None, _)) as H
    by (vm_compute; reflexivity).
  match type of H with
  | _ = Done (_, ?st) =>
      assert (forallb
                (fun s => match cached nat st "com" s with
                          | Some None => true
                          | _ => false
                          end) ROOT_SERVERS = true) as Hall
        by (vm_compute; reflexivity)
  end.
  eexists. split; [exact H |].
  apply (dead_key_stays_dead from_text escapify nat dark_net builds_all 0
           "b.other.com" "com" []); [reflexivity |].
  intros s Hs. exists None. split; [| exact I].
  apply (proj1 (forallb_forall _ _) Hall) in Hs. cbv beta in Hs.
  match type of Hs with
  | match ?c with _ => _ end = true =>
      destruct c as [[m |] |]; [discriminate Hs | reflexivity | discriminate Hs]
  end.
Defined.

(** The authoritative server of [alias_net] has an empty reply for
    [b.other.com]; [find_recursive] returns that very reply. *)
Lemma empty_reply_is_the_servers :
  exists st',
    find_recursive from_text escapify unit alias_net 1 b_other_com rdatatype.A
      auth_server (initial_state tt) = Done (Some empty_message, st') /\
    (answer empty_message <> [] \/ empty_message = empty_message).
Proof.
  eassert (find_recursive from_text escapify unit alias_net 1 b_other_com
             rdatatype.A auth_server (initial_state tt)
           = Done (Some empty_message, _)) as H
    by (vm_compute; reflexivity).
  eexists. split; [exact H |].
  exact (find_recursive_result from_text escapify unit alias_net _ _ _ _ _ _ _ H).
Defined.

(** Chasing [target.example.net] from the TLD server of [alias_net] asks
    two servers and leaves the cache as it was. *)
Lemma chase_leaves_cache :
  exists r st',
    find_recursive from_text escapify unit alias_net 2 target_name rdatatype.A
      tld_server (initial_state tt) = Done (r, st') /\
    length (trace st') = 2%nat /\
    domain_cache st' = domain_cache (initial_state tt).
Proof.
  eassert (find_recursive from_text escapify unit alias_net 2 target_name
             rdatatype.A tld_server (initial_state tt) = Done (_, _)) as H
    by (vm_compute; reflexivity).
  do 2 eexists. split; [exact H |]. split; [reflexivity |].
  apply (find_recursive_leaves_cache from_text escapify unit alias_net 2
           target_name rdatatype.A) with (ip_addr := tld_server) (r := Some target_reply).
  - intros w ip resp w' Hudp. unfold alias_net in Hudp.
    repeat case_decide; subst; cbn in Hudp; inversion Hudp; reflexivity.
  - exact H.
Defined.

(** Two [get_results] calls for names under [com] on [flaky_net], one
    after the other: two root-loop queries under that key, within the
    bound. *)
Lemma flaky_root_queries_are_bounded :
  exists st,
    later from_text escapify nat flaky_net (initial_state 0%nat) st /\
    length (trace st) = 2%nat /\
    (length (List.filter (sent_under "com") (trace st)) <= 13)%nat.
Proof.
  eassert (get_results from_text escapify nat flaky_net 1 "a.example.com"
             (initial_state 0%nat) = Done (_, _)) as H1
    by (vm_compute; reflexivity).
  match type of H1 with
  | _ = Done (_, ?st1) =>
      eassert (get_results from_text escapify nat flaky_net 1 "b.other.com"
                 st1 = Done (_, _)) as H2
        by (vm_compute; reflexivity)
  end.
  match type of H2 with
  | _ = Done (_, ?st2) =>
      assert (later from_text escapify nat flaky_net (initial_state 0%nat) st2) as Hl
        by exact (later_get_results _ _ _ _ _ _ _ _ _
                    (done_leaves _ _ _ _ H1)
                    (later_get_results _ _ _ _ _ _ _ _ _
                       (done_leaves _ _ _ _ H2) (later_now _ _ _ _ _)));
      exists st2
  end.
  split; [exact Hl |]. split; [vm_compute; reflexivity |].
  exact (at_most_thirteen_root_queries_per_key from_text escapify nat flaky_net
           0%nat _ "com" Hl).
Defined.

(** A lookup of [example.\128] raises at once; a lookup of
    [alias.example.com] where that name is an alias for [example.\128.]
    raises after two queries, and the entry stored for the first root
    server is still there. *)
Lemma undecodable_lookups_raise :
  find from_text escapify unit alias_net 1 undecodable_name rdatatype.A
    (initial_state tt) = Raise UnicodeDecodeError (initial_state tt) /\
  exists st',
    find from_text escapify unit undecodable_alias_net 3 alias_name rdatatype.A
      (initial_state tt) = Raise UnicodeDecodeError st' /\
    length (trace st') = 2%nat /\
    is_Some (cached unit st' "com" "198.41.0.4") /\
    extends unit (initial_state tt) st'.
Proof.
  split.
  - apply (proj2 (proj2 (find_raises_only_decode_error from_text escapify unit
                           alias_net 0 undecodable_name rdatatype.A
                           (initial_state tt))) UnicodeDecodeError).
    reflexivity.
  - eassert (find from_text escapify unit undecodable_alias_net 3 alias_name
               rdatatype.A (initial_state tt) = Raise UnicodeDecodeError _) as H
      by (vm_compute; reflexivity).
    eexists. split; [exact H |]. split; [reflexivity |].
    split; [vm_compute; eauto |].
    exact (proj2 (proj1 (find_raises_only_decode_error from_text escapify unit
                           undecodable_alias_net 3 alias_name rdatatype.A
                           (initial_state tt)) _ _ H)).
Defined.

End MoreExamples.
